(** * diffoscope: the container pairing engine

    A shallow embedding of
      - [diffoscope/comparators/utils/container.py]
        ([Container], [MissingContainer], [OneMemberContainer]) and
      - [diffoscope/comparators/ar.py] ([ArContainer.get_adjusted_members]).

    Python objects are modelled by their observable state: a container is
    its class name, its [_source] and the results of its (overridable)
    methods; the methods the base class implements are functions over that
    record.  Exceptions are values of [result]; a generator is the list of
    what it yielded together with the exception that ended it, if any. *)

From Stdlib Require Import ZArith.
From stdpp Require Import base option list strings pretty sorting.

Local Open Scope string_scope.
Local Open Scope list_scope.

(** ** Exceptions and results *)

Inductive exn : Type :=
| KeyError
| IndexError
| AttributeError.

Inductive result (A : Type) : Type :=
| Ok (a : A)
| Raise (e : exn).
Arguments Ok {A} a.
Arguments Raise {A} e.

Definition rbind {A B} (r : result A) (k : A → result B) : result B :=
  match r with
  | Ok a => k a
  | Raise e => Raise e
  end.

Notation "x ← r ;;; k" := (rbind r (λ x, k))
  (at level 20, r at level 100, k at level 200, right associativity,
   format "'[' x  ←  r  ;;; '/' k ']'").

(** What a generator produced: the values it yielded, in order, and the
    exception that terminated it ([None] for a normal [StopIteration]). *)
Record generated (A : Type) : Type := Gen {
  yielded : list A;
  raised : option exn
}.
Arguments Gen {A} yielded raised.
Arguments yielded {A} g.
Arguments raised {A} g.

Definition gen_map {A B} (f : A → B) (g : generated A) : generated B :=
  Gen (f <$> yielded g) (raised g).

(** Run [k] on the value of [r]; a raise ends the generator before any
    further yield. *)
Definition gen_try {A B} (r : result A) (k : A → generated B) : generated B :=
  match r with
  | Ok a => k a
  | Raise e => Gen [] (Some e)
  end.

(** ** collections.OrderedDict with string keys

    An association list in insertion order, keys pairwise distinct. *)

Abbreviation OrderedDict V := (list (string * V)).

Section ordered_dict.
Context {V : Type}.
Implicit Type d : OrderedDict V.

Definition keys d : list string := d.*1.
Definition values d : list V := d.*2.

(** [k in d] *)
Definition contains (k : string) d : bool :=
  bool_decide (k ∈ keys d).

(** [d[k] = v]: an existing key keeps its position, a new one goes last. *)
Fixpoint setitem d (k : string) (v : V) : OrderedDict V :=
  match d with
  | [] => [(k, v)]
  | (k', v') :: d' =>
      if decide (k = k') then (k, v) :: d' else (k', v') :: setitem d' k v
  end.

(** [OrderedDict(pairs)] *)
Definition of_pairs (l : list (string * V)) : OrderedDict V :=
  foldl (λ d p, setitem d p.1 p.2) [] l.

(** [d.pop(k)]: the value and the dictionary without [k]; [KeyError] when
    [k] is not a key. *)
Fixpoint pop (k : string) d : result (V * OrderedDict V) :=
  match d with
  | [] => Raise KeyError
  | (k', v') :: d' =>
      if decide (k = k') then Ok (v', d')
      else p ← pop k d' ;;; Ok (p.1, (k', v') :: p.2)
  end.

(** [d.popitem(last=False)] *)
Definition popitem_first d : result ((string * V) * OrderedDict V) :=
  match d with
  | [] => Raise KeyError
  | p :: d' => Ok (p, d')
  end.

(** [d.popitem()], which removes the item inserted last. *)
Definition popitem d : result ((string * V) * OrderedDict V) :=
  match last d with
  | None => Raise KeyError
  | Some p => Ok (p, removelast d)
  end.
End ordered_dict.

(** ** Files and containers *)

(** A file after [specialize]: a regular file carries the container facet
    its class gives it ([as_container]); a [MissingFile] carries the file
    it stands in for ([other_file]).  A container is an instance of some
    concrete subclass of [Container]: [_source] and what its methods
    [get_member_names], [get_member] and [get_nested_container] evaluate
    to. *)
#[local] Unset Elimination Schemes.
Inductive File : Type :=
| RegularFile (name : string) (container : option Container)
| MissingFile (path : string) (other : option File)
with Container : Type :=
| Instance (cls : string) (src : File)
    (member_names : result (list string))
    (member : string → result File)
    (nested_container : result (option Container)).
#[local] Set Elimination Schemes.

Definition class_name (c : Container) : string :=
  match c with Instance cls _ _ _ _ => cls end.
Definition source (c : Container) : File :=
  match c with Instance _ s _ _ _ => s end.
Definition get_member_names (c : Container) : result (list string) :=
  match c with Instance _ _ ns _ _ => ns end.
Definition get_member (c : Container) (member_name : string) : result File :=
  match c with Instance _ _ _ m _ => m member_name end.
Definition get_nested_container (c : Container) : result (option Container) :=
  match c with Instance _ _ _ _ n => n end.

(** [isinstance(f, MissingFile)] *)
Definition is_missing (f : File) : bool :=
  match f with MissingFile _ _ => true | RegularFile _ _ => false end.

(** [f.other_file]: only a [MissingFile] has the attribute. *)
Definition other_file (f : File) : result (option File) :=
  match f with
  | MissingFile _ o => Ok o
  | RegularFile _ _ => Raise AttributeError
  end.

(** [o.get_member_names()] for the value of an [as_container] property. *)
Definition names_of_facet (o : option Container) : result (list string) :=
  match o with
  | Some c => get_member_names c
  | None => Raise AttributeError
  end.

Definition dev_null : string := "/dev/null".

(** Modelled from the spec: [MissingFile.as_container]
    (missing_file.py and utils/file.py are not part of the sources).  A
    placeholder has a container facet exactly when its counterpart has
    one; the facet is the [MissingContainer] built on the placeholder,
    whose methods are those of [class MissingContainer] below. *)
Fixpoint as_container (f : File) : option Container :=
  match f with
  | RegularFile _ c => c
  | MissingFile p None => None
  | MissingFile p (Some o) =>
      match as_container o with
      | None => None
      | Some c =>
          Some (Instance "MissingContainer" (MissingFile p (Some o))
                  (get_member_names c)
                  (λ _, Ok (MissingFile dev_null None))
                  (Ok None))
      end
  end.

(** ** Classes

    A concrete subclass of [Container]: its name and its methods as
    functions of the instance's [_source]. *)
Record ContainerClass : Type := {
  cls_name : string;
  cls_get_member_names : File → result (list string);
  cls_get_member : File → string → result File;
  cls_get_nested_container : File → result (option Container)
}.

(** [object.__new__(cls)] followed by [Container.__init__(source)]. *)
Definition instantiate (cls : ContainerClass) (source : File) : Container :=
  Instance (cls_name cls) source
    (cls_get_member_names cls source)
    (cls_get_member cls source)
    (cls_get_nested_container cls source).

(** [class MissingContainer(Container)] *)
Definition MissingContainer : ContainerClass := {|
  cls_name := "MissingContainer";
  (* self.source.other_file.as_container.get_member_names() *)
  cls_get_member_names := λ source,
    o ← other_file source ;;;
    match o with
    | None => Raise AttributeError
    | Some f => names_of_facet (as_container f)
    end;
  (* MissingFile('/dev/null') *)
  cls_get_member := λ _ _, Ok (MissingFile dev_null None);
  (* inherited Container.get_nested_container *)
  cls_get_nested_container := λ _, Ok None
|}.

(** [Container.__new__(cls, source)], then the [__init__] Python runs on
    the object it returned. *)
Definition Container_new (cls : ContainerClass) (source : File) : Container :=
  if is_missing source then instantiate MissingContainer source
  else instantiate cls source.

(** A direct concrete subclass of [Container] that supplies the two
    abstract methods and inherits [get_nested_container]. *)
Definition Subclass (name : string)
    (names : File → result (list string))
    (member : File → string → result File) : ContainerClass := {|
  cls_name := name;
  cls_get_member_names := names;
  cls_get_member := member;
  cls_get_nested_container := λ _, Ok None
|}.

(** [names[0]] *)
Definition first_name (names : list string) : result string :=
  match names with
  | [] => Raise IndexError
  | n :: _ => Ok n
  end.

(** A concrete subclass of [class OneMemberContainer(Container)]. *)
Definition OneMemberContainer (name : string)
    (names : File → result (list string))
    (member : File → string → result File) : ContainerClass := {|
  cls_name := name;
  cls_get_member_names := names;
  cls_get_member := member;
  (* get_the_only_member: self.get_member(self.get_member_names()[0]);
     get_nested_container: specialize(only_member); only_member.as_container *)
  cls_get_nested_container := λ source,
    ns ← names source ;;;
    n ← first_name ns ;;;
    only_member ← member source n ;;;
    Ok (as_container only_member)
|}.

(** ** Methods of the base class *)

(** [Container.get_all_members]: fetch every listed member in turn; the
    generator stops at the first fetch that raises. *)
Fixpoint fetch_all (member : string → result File) (names : list string)
  : result (list (string * File)) :=
  match names with
  | [] => Ok []
  | name :: names' =>
      f ← member name ;;;
      rest ← fetch_all member names' ;;;
      Ok ((name, f) :: rest)
  end.

Definition get_all_members (self : Container) : result (list (string * File)) :=
  names ← get_member_names self ;;;
  fetch_all (get_member self) names.

(** [Container.get_members] *)
Definition get_members (self : Container) : result (OrderedDict File) :=
  all ← get_all_members self ;;;
  Ok (of_pairs all).

(** [Container.lookup_file], called with the names as a list.  [Ok None]
    is Python's [None]; only a [KeyError] of [get_member] is caught.
    [specialize(file)] has no effect here: files carry their facet. *)
Fixpoint lookup_file (self : Container) (names : list string)
  : result (option File) :=
  match names with
  | [] => Raise IndexError
  | name :: remainings =>
      match get_member self name with
      | Raise KeyError => Ok None
      | Raise e => Raise e
      | Ok file =>
          match remainings with
          | [] => Ok (Some file)
          | _ :: _ =>
              match as_container file with
              | None => Ok None
              | Some container => lookup_file container remainings
              end
          end
      end
  end.

(** [reaches self names file]: digging from [self] along [names], each
    fetch succeeding and each intermediate member being a container, ends
    at [file]. *)
Inductive reaches : Container → list string → File → Prop :=
| reaches_member self name file :
    get_member self name = Ok file →
    reaches self [name] file
| reaches_nested self name file container names file' :
    get_member self name = Ok file →
    as_container file = Some container →
    reaches container names file' →
    reaches self (name :: names) file'.

(** ** Pairings *)

Definition comment : Type := option string.
Definition NO_COMMENT : comment := None.

(** What [comparisons] yields: ours, theirs and a comment. *)
Definition pairing : Type := File * File * comment.

(** ['... (difference score: %d)' % score] *)
Definition fuzzy_comment (score : Z) : comment :=
  Some ("Files similar despite different names (difference score: "
          +:+ pretty score +:+ ")").

(** What the fuzzy matcher yields: [(my_name, other_name, score)]. *)
Definition candidate : Type := string * string * Z.
Definition cand_mine (c : candidate) : string := c.1.1.
Definition cand_theirs (c : candidate) : string := c.1.2.
Definition cand_score (c : candidate) : Z := c.2.

(** The part of [Config()] the engine reads. *)
Record Config : Type := { new_file : bool }.

(** ** Container.comparisons

    [perform_fuzzy_matching] lives in utils/fuzzy.py, outside these
    sources: the engine is parameterised by it.  It receives the two
    dictionaries as they are when the fuzzy loop starts and produces
    [(my_name, other_name, score)] triples.  [Progress] only reports
    liveness and is left out. *)

Section comparisons.
Variable perform_fuzzy_matching :
  OrderedDict File → OrderedDict File → list candidate.
Variable config : Config.

(** The state a loop leaves behind: ours and theirs still unpaired, or
    the exception that interrupted it. *)
Definition leftovers : Type := result (OrderedDict File * OrderedDict File).

(** Lines 134-140: [while my_members: ... popitem(last=False) ...] with
    [my_reminders] accumulating the members without a namesake. *)
Fixpoint exact_name_loop (my_members my_reminders other_members : OrderedDict File)
  : list pairing * leftovers :=
  match my_members with
  | [] => ([], Ok (my_reminders, other_members))
  | (my_member_name, my_member) :: my_members' =>
      if contains my_member_name other_members then
        match pop my_member_name other_members with
        | Raise e => ([], Raise e)
        | Ok (other_member, other_members') =>
            let (out, st) :=
              exact_name_loop my_members' my_reminders other_members' in
            ((my_member, other_member, NO_COMMENT) :: out, st)
        end
      else
        exact_name_loop my_members'
          (setitem my_reminders my_member_name my_member) other_members
  end.

(** Lines 143-146: one pairing per triple of the matcher; each side is
    popped from its dictionary. *)
Fixpoint fuzzy_loop (matches : list candidate)
    (my_members other_members : OrderedDict File)
  : list pairing * leftovers :=
  match matches with
  | [] => ([], Ok (my_members, other_members))
  | (my_name, other_name, score) :: matches' =>
      match pop my_name my_members with
      | Raise e => ([], Raise e)
      | Ok (my_member, my_members') =>
          match pop other_name other_members with
          | Raise e => ([], Raise e)
          | Ok (other_member, other_members') =>
              let (out, st) := fuzzy_loop matches' my_members' other_members' in
              ((my_member, other_member, fuzzy_comment score) :: out, st)
          end
      end
  end.

(** Lines 149-155: what is left on either side faces a [MissingFile]. *)
Definition added_removed (my_members other_members : OrderedDict File)
  : list pairing :=
  ((λ my_member, (my_member, MissingFile dev_null (Some my_member), NO_COMMENT))
     <$> values my_members)
  ++ ((λ other_member,
         (MissingFile dev_null (Some other_member), other_member, NO_COMMENT))
        <$> values other_members).

(** Lines 132-155. *)
Definition pairing_passes (my_members other_members : OrderedDict File)
  : generated pairing :=
  let (exact, st) := exact_name_loop my_members [] other_members in
  match st with
  | Raise e => Gen exact (Some e)
  | Ok (my_reminders, other_members) =>
      let (fuzzy, st') :=
        fuzzy_loop (perform_fuzzy_matching my_reminders other_members)
          my_reminders other_members in
      match st' with
      | Raise e => Gen (exact ++ fuzzy) (Some e)
      | Ok (my_members, other_members) =>
          Gen (exact ++ fuzzy
               ++ (if new_file config
                   then added_removed my_members other_members else []))
            None
      end
  end.

(** Lines 127-130: a side with a nested container is replaced by the
    members of that container. *)
Definition unpack (nested : option Container) (members : OrderedDict File)
  : result (OrderedDict File) :=
  match nested with
  | Some c => get_members c
  | None => Ok members
  end.

(** [Container.comparisons(self, other)].  A container object is always
    truthy, so [if my_nested_container] tests for [Some]. *)
Definition comparisons (self other : Container) : generated pairing :=
  gen_try (get_members self) (λ my_members,
  gen_try (get_members other) (λ other_members,
  gen_try (get_nested_container self) (λ my_nested_container,
  gen_try (get_nested_container other) (λ other_nested_container,
    match my_nested_container, other_nested_container with
    | Some _, Some _ =>
        gen_try (popitem my_members) (λ mine,
        gen_try (popitem other_members) (λ theirs,
          Gen [(mine.1.2, theirs.1.2, NO_COMMENT)] None))
    | _, _ =>
        gen_try (unpack my_nested_container my_members) (λ my_members,
        gen_try (unpack other_nested_container other_members) (λ other_members,
          pairing_passes my_members other_members))
    end)))).

(** *** The same run, recording names

    Pairings carry files, not names.  The traced run performs the same
    steps and records with each pairing the pass that produced it and
    the dictionary keys it consumed ([None] for a side invented by the
    residual pass). *)

Inductive pass : Type := Nested | ExactName | Fuzzy | Residual.

Record event : Type := Event {
  ev_pass : pass;
  ev_mine : option string;
  ev_theirs : option string;
  ev_pairing : pairing
}.

Fixpoint exact_name_trace (my_members my_reminders other_members : OrderedDict File)
  : list event * leftovers :=
  match my_members with
  | [] => ([], Ok (my_reminders, other_members))
  | (my_member_name, my_member) :: my_members' =>
      if contains my_member_name other_members then
        match pop my_member_name other_members with
        | Raise e => ([], Raise e)
        | Ok (other_member, other_members') =>
            let (out, st) :=
              exact_name_trace my_members' my_reminders other_members' in
            (Event ExactName (Some my_member_name) (Some my_member_name)
               (my_member, other_member, NO_COMMENT) :: out, st)
        end
      else
        exact_name_trace my_members'
          (setitem my_reminders my_member_name my_member) other_members
  end.

Fixpoint fuzzy_trace (matches : list candidate)
    (my_members other_members : OrderedDict File)
  : list event * leftovers :=
  match matches with
  | [] => ([], Ok (my_members, other_members))
  | (my_name, other_name, score) :: matches' =>
      match pop my_name my_members with
      | Raise e => ([], Raise e)
      | Ok (my_member, my_members') =>
          match pop other_name other_members with
          | Raise e => ([], Raise e)
          | Ok (other_member, other_members') =>
              let (out, st) := fuzzy_trace matches' my_members' other_members' in
              (Event Fuzzy (Some my_name) (Some other_name)
                 (my_member, other_member, fuzzy_comment score) :: out, st)
          end
      end
  end.

Definition added_removed_trace (my_members other_members : OrderedDict File)
  : list event :=
  ((λ p : string * File,
      Event Residual (Some p.1) None
        (p.2, MissingFile dev_null (Some p.2), NO_COMMENT)) <$> my_members)
  ++ ((λ p : string * File,
         Event Residual None (Some p.1)
           (MissingFile dev_null (Some p.2), p.2, NO_COMMENT)) <$> other_members).

Definition pairing_passes_trace (my_members other_members : OrderedDict File)
  : generated event :=
  let (exact, st) := exact_name_trace my_members [] other_members in
  match st with
  | Raise e => Gen exact (Some e)
  | Ok (my_reminders, other_members) =>
      let (fuzzy, st') :=
        fuzzy_trace (perform_fuzzy_matching my_reminders other_members)
          my_reminders other_members in
      match st' with
      | Raise e => Gen (exact ++ fuzzy) (Some e)
      | Ok (my_members, other_members) =>
          Gen (exact ++ fuzzy
               ++ (if new_file config
                   then added_removed_trace my_members other_members else []))
            None
      end
  end.

Definition comparisons_trace (self other : Container) : generated event :=
  gen_try (get_members self) (λ my_members,
  gen_try (get_members other) (λ other_members,
  gen_try (get_nested_container self) (λ my_nested_container,
  gen_try (get_nested_container other) (λ other_nested_container,
    match my_nested_container, other_nested_container with
    | Some _, Some _ =>
        gen_try (popitem my_members) (λ mine,
        gen_try (popitem other_members) (λ theirs,
          Gen [Event Nested (Some mine.1.1) (Some theirs.1.1)
                 (mine.1.2, theirs.1.2, NO_COMMENT)] None))
    | _, _ =>
        gen_try (unpack my_nested_container my_members) (λ my_members,
        gen_try (unpack other_nested_container other_members) (λ other_members,
          pairing_passes_trace my_members other_members))
    end)))).
End comparisons.

(** *** Vocabulary for the statements *)

(** The members of [d] whose name is not among [ks]. *)
Definition without {V} (ks : list string) (d : OrderedDict V) : OrderedDict V :=
  filter (λ p, p.1 ∉ ks) d.

(** The names a trace consumed on either side. *)
Definition names_mine (tr : list event) : list string := omap ev_mine tr.
Definition names_theirs (tr : list event) : list string := omap ev_theirs tr.

(** An event is sound for two dictionaries when the files it pairs are the
    members stored under the names it records, an invented side is the
    [MissingFile] for the member it faces, and the comment fits the pass. *)
Definition event_sound (my_members other_members : OrderedDict File)
    (e : event) : Prop :=
  let '(mine, theirs, note) := ev_pairing e in
  match ev_pass e, ev_mine e, ev_theirs e with
  | Nested, Some a, Some b =>
      (a, mine) ∈ my_members ∧ (b, theirs) ∈ other_members ∧ note = NO_COMMENT
  | ExactName, Some a, Some b =>
      a = b ∧ (a, mine) ∈ my_members ∧ (b, theirs) ∈ other_members
      ∧ note = NO_COMMENT
  | Fuzzy, Some a, Some b =>
      (a, mine) ∈ my_members ∧ (b, theirs) ∈ other_members
      ∧ ∃ score, note = fuzzy_comment score
  | Residual, Some a, None =>
      (a, mine) ∈ my_members ∧ theirs = MissingFile dev_null (Some mine)
      ∧ note = NO_COMMENT
  | Residual, None, Some b =>
      (b, theirs) ∈ other_members ∧ mine = MissingFile dev_null (Some theirs)
      ∧ note = NO_COMMENT
  | _, _, _ => False
  end.

(** How a fuzzy event reflects the matcher's triple. *)
Definition reflects (e : event) (c : candidate) : Prop :=
  ev_mine e = Some (cand_mine c) ∧ ev_theirs e = Some (cand_theirs c)
  ∧ (ev_pairing e).2 = fuzzy_comment (cand_score c).

(** Descending score. *)
Definition by_score : relation candidate :=
  λ c d, (cand_score d ≤ cand_score c)%Z.

(** What the engine needs from a matcher's answer: names of the two
    dictionaries it was given, none of them twice. *)
Definition well_matched (matches : list candidate)
    (my_members other_members : OrderedDict File) : Prop :=
  NoDup (cand_mine <$> matches) ∧ NoDup (cand_theirs <$> matches)
  ∧ ∀ c, c ∈ matches →
      cand_mine c ∈ keys my_members ∧ cand_theirs c ∈ keys other_members.

Definition matcher_contract
    (matcher : OrderedDict File → OrderedDict File → list candidate) : Prop :=
  ∀ my_members other_members,
    NoDup (keys my_members) → NoDup (keys other_members) →
    well_matched (matcher my_members other_members) my_members other_members.

(** ** ArContainer (comparators/ar.py) *)

Definition known_ignores : OrderedDict string := [
  ("/", "this is the symbol table, already accounted for in other output");
  ("//", "this is the table for GNU long names, already accounted for in the archive filelist")
].

(** [ArContainer.get_adjusted_members], given what
    [LibarchiveContainer.get_adjusted_members] (not in these sources)
    produced.  The first comprehension only feeds the debug log. *)
Definition ArContainer_get_adjusted_members {M : Type}
    (super_get_adjusted_members : list (string * M)) : list (string * M) :=
  let members := super_get_adjusted_members in
  filter (λ p, p.1 ∉ keys known_ignores) members.

(** ** A fuzzy matcher *)

(** Modelled from the spec: [perform_fuzzy_matching] (utils/fuzzy.py is
    absent).  Every cross pair of still-unmatched members gets a score
    from a pluggable similarity function; pairs scoring at or above a fixed
    threshold are accepted greedily in descending score order, each member
    consumed by at most one pairing; ties keep the listing order (ours
    first, then theirs).  Scores are integers, as the comment's [%d]
    expects. *)
Section fuzzy_matcher.
Variable similarity : File → File → Z.
Variable fuzzy_threshold : Z.

Definition cross_scores (my_members other_members : OrderedDict File)
  : list candidate :=
  p ← my_members; (λ q, (p.1, q.1, similarity p.2 q.2)) <$> other_members.

(** Insert before the first entry that does not score higher. *)
Fixpoint insert_by_score (c : candidate) (l : list candidate) : list candidate :=
  match l with
  | [] => [c]
  | d :: l' =>
      if decide (cand_score d ≤ cand_score c)%Z then c :: d :: l'
      else d :: insert_by_score c l'
  end.

(** Modelled from the spec: the candidates in descending score order,
  [perform_fuzzy_matching] being absent. *)
Definition sort_by_score (l : list candidate) : list candidate :=
  foldr insert_by_score [] l.

Fixpoint greedy_accept (cands : list candidate) (mine theirs : list string)
  : list candidate :=
  match cands with
  | [] => []
  | c :: cands' =>
      if decide (cand_mine c ∈ mine ∨ cand_theirs c ∈ theirs)
      then greedy_accept cands' mine theirs
      else c :: greedy_accept cands' (cand_mine c :: mine) (cand_theirs c :: theirs)
  end.

(** Modelled from the spec: [perform_fuzzy_matching] of utils/fuzzy.py,
  which is not part of the sources. *)
Definition greedy_fuzzy_matching (my_members other_members : OrderedDict File)
  : list candidate :=
  greedy_accept
    (sort_by_score
       (filter (λ c, (fuzzy_threshold ≤ cand_score c)%Z)
          (cross_scores my_members other_members)))
    [] [].
End fuzzy_matcher.

(** ** Sample files and containers *)

Definition plain (name : string) : File := RegularFile name None.

Definition file_name (f : File) : string :=
  match f with RegularFile n _ => n | MissingFile p _ => p end.

(** An archive class listing [names]; member [n] is the file [prefix ++ n]. *)
Definition listing (names : list string) (prefix : string) : ContainerClass :=
  Subclass "TarContainer" (λ _, Ok names)
    (λ _ n, if decide (n ∈ names) then Ok (plain (prefix +:+ n))
            else Raise KeyError).

Definition tar_a : Container :=
  instantiate (listing ["a.txt"; "b.txt"; "x"] "a/") (plain "a.tar").
Definition tar_b : Container :=
  instantiate (listing ["c.txt"; "a.txt"; "y"] "b/") (plain "b.tar").

(** [a/b.txt] and [b/c.txt] have near-identical content. *)
Definition sample_similarity (f g : File) : Z :=
  if decide (file_name f = "a/b.txt" ∧ file_name g = "b/c.txt") then 90%Z
  else 0%Z.

Definition sample_matcher
  : OrderedDict File → OrderedDict File → list candidate :=
  greedy_fuzzy_matching sample_similarity 60.

(** Every pair scores the same: all candidates tie. *)
Definition flat_similarity (f g : File) : Z := 70%Z.

(** A matcher that answers with the same name of ours twice. *)
Definition repeating_matcher (my_members other_members : OrderedDict File)
  : list candidate :=
  [("b.txt", "c.txt", 80%Z); ("b.txt", "y", 75%Z)].

Definition with_added_removed : Config := {| new_file := true |}.
Definition without_added_removed : Config := {| new_file := false |}.

(** A compressed file: one member, the payload. *)
Definition wrapper (payload : File) : ContainerClass :=
  OneMemberContainer "GzipContainer" (λ _, Ok ["payload"])
    (λ _ n, if decide (n = "payload") then Ok payload else Raise KeyError).

Definition gz_a : Container :=
  instantiate (wrapper (RegularFile "a.tar" (Some tar_a))) (plain "a.tar.gz").
Definition gz_b : Container :=
  instantiate (wrapper (RegularFile "b.tar" (Some tar_b))) (plain "b.tar.gz").


(** The placeholder for a removed [a.tar]. *)
Definition removed_tar : File :=
  MissingFile dev_null (Some (RegularFile "a.tar" (Some tar_a))).


(** ** More of container.py *)

(** [sorted(names)]: strings compare by code point, which for UTF-8 text
    is the order of their bytes. *)
Definition sorted (names : list string) : list string :=
  merge_sort (λ a b : string, String.leb a b) names.

(** ['[%s] %s' % (label, member)] *)
Definition nested_label (label member : string) : string :=
  "[" +:+ label +:+ "] " +:+ member.

(** What [get_member_names()] hands out: a list made for the call, or the
    list object the instance keeps.  [get_member_names_nested] extends in
    place the list it was handed, so an instance that hands out the list
    it keeps lists the added entries from then on. *)
Inductive handed_out : Type :=
| NewList
| KeptList.

(** The instance once the list it keeps holds [names]; its other methods
    answer as before. *)
Definition with_member_names (self : Container) (names : list string)
  : Container :=
  match self with
  | Instance cls src _ member nested_container =>
      Instance cls src (Ok names) member nested_container
  end.

(** [Container.get_member_names_nested]: the value it returns, and the
    instance after the call.  [member_names += ...] extends the list
    [get_member_names] handed out, after the right-hand side has been
    evaluated.  The [name] attribute of a file is defined outside these
    sources; [file_name] stands for it. *)
Definition get_member_names_nested (list_is : handed_out) (self : Container)
  : result (list string) * Container :=
  match get_member_names self with
  | Raise e => (Raise e, self)
  | Ok member_names =>
      match get_nested_container self with
      | Raise e => (Raise e, self)
      | Ok None => (Ok member_names, self)
      | Ok (Some nested_container) =>
          match get_member_names nested_container with
          | Raise e => (Raise e, self)
          | Ok inner =>
              let member_names :=
                member_names
                ++ (nested_label (file_name (source nested_container))
                      <$> sorted inner) in
              (Ok member_names,
               match list_is with
               | NewList => self
               | KeptList => with_member_names self member_names
               end)
          end
      end
  end.

(** [n] calls of [get_member_names_nested] in a row: what each returned,
    and the instance after the last. *)
Fixpoint calls (list_is : handed_out) (n : nat) (self : Container)
  : list (result (list string)) * Container :=
  match n with
  | 0 => ([], self)
  | S n' =>
      let (returned, self') := get_member_names_nested list_is self in
      let (later, final) := calls list_is n' self' in
      (returned :: later, final)
  end.

(** [Container.compare]: [itertools.starmap] of [compare_commented_files]
    (utils/compare.py, not in these sources, hence a parameter that may
    raise) over [comparisons].  The map is lazy: it stops at the first
    comparison that raises, and otherwise ends the way [comparisons]
    does. *)
Section compare.
Context {D : Type}.
Variable compare_commented_files : File → File → comment → result D.

(** The comparison of one pairing returned [d]. *)
Definition compared (pr : pairing) (d : D) : Prop :=
compare_commented_files pr.1.1 pr.1.2 pr.2 = Ok d.

Fixpoint starmap (items : list pairing) (ending : option exn) : generated D :=
match items with
| [] => Gen [] ending
| (file1, file2, note) :: items' =>
    match compare_commented_files file1 file2 note with
    | Raise e => Gen [] (Some e)
    | Ok d =>
        let rest := starmap items' ending in
        Gen (d :: yielded rest) (raised rest)
    end
end.

Definition compare
  (perform_fuzzy_matching :
     OrderedDict File → OrderedDict File → list candidate)
  (config : Config) (self other : Container) : generated D :=
let pairings := comparisons perform_fuzzy_matching config self other in
starmap (yielded pairings) (raised pairings).
End compare.

(** The three shapes a pairing of the passes can have: two members, with
    the same name and no comment or with a fuzzy comment; a member of ours
    facing the [MissingFile] made for it; a member of theirs facing the
    [MissingFile] made for it. *)
Definition pairing_of_members (my_members other_members : OrderedDict File)
    (pr : pairing) : Prop :=
  let '(mine, theirs, note) := pr in
  (∃ a b, (a, mine) ∈ my_members ∧ (b, theirs) ∈ other_members
          ∧ ((a = b ∧ note = NO_COMMENT) ∨ ∃ score, note = fuzzy_comment score))
  ∨ ((∃ a, (a, mine) ∈ my_members)
     ∧ theirs = MissingFile dev_null (Some mine) ∧ note = NO_COMMENT)
  ∨ ((∃ b, (b, theirs) ∈ other_members)
     ∧ mine = MissingFile dev_null (Some theirs) ∧ note = NO_COMMENT).

(** [Container.lookup_file] with the two calls it makes outside its [try]
    as parameters that may raise: [specialize(file)] (line 76) and the
    [as_container] property of the member (line 80), both defined outside
    these sources.  [lookup_file] above is the case where neither
    raises. *)
Section lookup_file_with.
Variable specialize : File → result unit.
Variable file_as_container : File → result (option Container).

Fixpoint lookup_file_with (self : Container) (names : list string)
: result (option File) :=
match names with
| [] => Raise IndexError
| name :: remainings =>
    match get_member self name with
    | Raise KeyError => Ok None
    | Raise e => Raise e
    | Ok file =>
        _ ← specialize file ;;;
        match remainings with
        | [] => Ok (Some file)
        | _ :: _ =>
            container ← file_as_container file ;;;
            match container with
            | None => Ok None
            | Some container => lookup_file_with container remainings
            end
        end
    end
end.

(** [escapes self names e]: digging from [self] along [names] meets a
  call that raises [e] and that no [try] guards: [names[0]] on no
  names, a [get_member] raising anything but a [KeyError],
  [specialize] on a fetched member, or [as_container] on a fetched
  member when names remain. *)
Inductive escapes : Container → list string → exn → Prop :=
| escapes_no_name self :
  escapes self [] IndexError
| escapes_get_member self name remainings e :
  get_member self name = Raise e →
  e ≠ KeyError →
  escapes self (name :: remainings) e
| escapes_specialize self name remainings file e :
  get_member self name = Ok file →
  specialize file = Raise e →
  escapes self (name :: remainings) e
| escapes_as_container self name remainings file e :
  get_member self name = Ok file →
  specialize file = Ok tt →
  remainings ≠ [] →
  file_as_container file = Raise e →
  escapes self (name :: remainings) e
| escapes_nested self name remainings file container e :
  get_member self name = Ok file →
  specialize file = Ok tt →
  remainings ≠ [] →
  file_as_container file = Ok (Some container) →
  escapes container remainings e →
  escapes self (name :: remainings) e.
End lookup_file_with.

(** ** debbindiff.py: the command line front end

    [argparse], [compare_files] and the two presenters are outside these
    sources.  The command line is the input; the calls out are parameters:
    [parse_args] returns the namespace or leaves through [sys.exit], the
    others return or raise; what [main] does to the outside world is the
    list of its effects. *)
Module debbindiff.

(** A call into code that is not modelled: its value, or an exception. *)
Inductive outcome (A : Type) : Type :=
| Returns (a : A)
| Raises.
Arguments Returns {A} a.
Arguments Raises {A}.

(** The namespace [parse_args] returns: an option that was not given is
    [None]. *)
Record Namespace : Type := {
  debug : bool;
  html_output : option string;
  text_output : option string;
  max_report_size : option Z;
  css_url : option string;
  file1 : string;
  file2 : string
}.

(** [create_parser().parse_args(arguments)]: the namespace, or the
    [SystemExit] with which argparse leaves after [--help], [--version]
    or a usage error. *)
Inductive parsing : Type :=
| Parsed (parsed_args : Namespace)
| SystemExit (status : Z).

(** How [main()] ends: it returns a status, an exception the script
    catches leaves it, or a [SystemExit] does. *)
Inductive ending : Type :=
| Returned (status : Z)
| Raised
| Exited (status : Z).

(** Where a report goes: [sys.stdout] or the file [open(path, 'w')] gave. *)
Inductive stream : Type :=
| Stdout
| FileStream (path : string).

Inductive effect : Type :=
| ParseArgs (arguments : list string)
| SetLevelDebug
| CompareFiles (file1 file2 : string)
| Open (path : string)
| Close (path : string)
| OutputHtml (output : stream) (css_url : option string)
    (max_page_size : option Z)
| OutputText (output : stream)
| PrintTraceback.

(** [if option:] on an optional string: [None] and [''] are false. *)
Definition given (o : option string) : option string :=
  match o with
  | Some s => if decide (s = "") then None else Some s
  | None => None
  end.

Section main.
Context {D : Type}.
Variable parse_args : list string → parsing.
Variable compare_files : string → string → outcome (list D).
Variable open_for_writing : string → outcome unit.
Variable output_html :
list D → option string → stream → option Z → outcome unit.
Variable output_text : list D → stream → outcome unit.

(** [with make_printer(path) as print_func: body].  The generator has no
  [try]: when the body raises, the lines after [yield] do not run. *)
Definition with_printer (path : string)
  (body : stream → list effect * outcome unit)
: list effect * outcome unit :=
if decide (path = "-") then body Stdout
else
  match open_for_writing path with
  | Raises => ([], Raises)
  | Returns _ =>
      let (effects, result) := body (FileStream path) in
      match result with
      | Returns _ => (Open path :: effects ++ [Close path], Returns tt)
      | Raises => (Open path :: effects, Raises)
      end
  end.

(** The [if parsed_args.html_output:] block. *)
Definition html_report (args : Namespace) (differences : list D)
: list effect * outcome unit :=
match given (html_output args) with
| None => ([], Returns tt)
| Some path =>
    with_printer path (λ output,
      ([OutputHtml output (css_url args) (max_report_size args)],
       output_html differences (css_url args) output (max_report_size args)))
end.

(** The [if parsed_args.text_output:] block. *)
Definition text_report (args : Namespace) (differences : list D)
: list effect * outcome unit :=
match given (text_output args) with
| None => ([], Returns tt)
| Some path =>
    with_printer path (λ output,
      ([OutputText output], output_text differences output))
end.

(** [main()], with [sys.argv] as [argv]; the parser is given
  [sys.argv[1:]]. *)
Definition main (argv : list string) : list effect * ending :=
let parsing := [ParseArgs (tail argv)] in
match parse_args (tail argv) with
| SystemExit status => (parsing, Exited status)
| Parsed parsed_args =>
    let set_level := if debug parsed_args then [SetLevelDebug] else [] in
    let compared :=
      parsing ++ set_level
      ++ [CompareFiles (file1 parsed_args) (file2 parsed_args)] in
    match compare_files (file1 parsed_args) (file2 parsed_args) with
    | Raises => (compared, Raised)
    | Returns differences =>
        if decide (0 < length differences) then
          let (html_effects, html) := html_report parsed_args differences in
          match html with
          | Raises => (compared ++ html_effects, Raised)
          | Returns _ =>
              let (text_effects, text) :=
                text_report parsed_args differences in
              match text with
              | Raises => (compared ++ html_effects ++ text_effects, Raised)
              | Returns _ =>
                  (compared ++ html_effects ++ text_effects, Returned 1%Z)
              end
          end
        else (compared, Returned 0%Z)
    end
end.

(** The [if __name__ == '__main__':] block: the effects and the exit
  status of the process.  [sys.exit(main())] leaves with the status
  [main] returned; [except (Exception, KeyboardInterrupt)] does not
  catch a [SystemExit], which leaves with its own status. *)
Definition script (argv : list string) : list effect * Z :=
match main argv with
| (effects, Returned status) => (effects, status)
| (effects, Exited status) => (effects, status)
| (effects, Raised) => (effects ++ [PrintTraceback], 2%Z)
end.
End main.

(** The files a run has opened and not closed, most recent first. *)
Fixpoint left_open (effects : list effect) (opened : list string) : list string :=
  match effects with
  | [] => opened
  | Open path :: effects' => left_open effects' (path :: opened)
  | Close path :: effects' =>
      left_open effects' (filter (λ p, p ≠ path) opened)
  | _ :: effects' => left_open effects' opened
  end.

Definition is_report (e : effect) : bool :=
  match e with
  | Open _ | Close _ | OutputHtml _ _ _ | OutputText _ => true
  | _ => false
  end.

End debbindiff.

(** ** More samples *)

(** An archive that lists a member it cannot fetch. *)
Definition tar_broken : Container :=
  instantiate
    (Subclass "TarContainer" (λ _, Ok ["a.txt"; "gone"; "x"])
       (λ _ n, if decide (n = "gone") then Raise AttributeError
               else Ok (plain ("a/" +:+ n))))
    (plain "broken.tar").

(** The container made for the placeholder of a removed [a.tar], and an
    [as_container] property that raises on a placeholder without
    counterpart. *)
Definition tar_removed : Container :=
  Container_new (listing [] "") removed_tar.
Definition raising_as_container (file : File) : result (option Container) :=
  match file with
  | MissingFile _ None => Raise AttributeError
  | _ => Ok (as_container file)
  end.

(** An archive without members, and a wrapper that lists nothing. *)
Definition tar_empty : Container :=
  instantiate (listing [] "e/") (plain "empty.tar").
Definition gz_empty : Container :=
  instantiate
    (OneMemberContainer "GzipContainer" (λ _, Ok []) (λ _ _, Raise KeyError))
    (plain "empty.gz").

(** An archive whose listing repeats a name. *)
Definition tar_repeating : Container :=
  instantiate (listing ["b"; "a"; "b"; "c"; "a"] "r/") (plain "r.tar").

(** A run of debbindiff: two packages that differ, an HTML report to a
    file and a text report to standard output, and an HTML presenter that
    raises. *)
Definition sample_args : debbindiff.Namespace := {|
  debbindiff.debug := false;
  debbindiff.html_output := Some "report.html";
  debbindiff.text_output := Some "-";
  debbindiff.max_report_size := None;
  debbindiff.css_url := None;
  debbindiff.file1 := "a.deb";
  debbindiff.file2 := "b.deb"
|}.
Definition sample_argv : list string :=
  ["debbindiff"; "--html"; "report.html"; "--text"; "-"; "a.deb"; "b.deb"].

(** The parser on the command lines of the samples: the one above,
    [--version], and anything else taken for a usage error. *)
Definition sample_parse_args (arguments : list string) : debbindiff.parsing :=
  if decide (arguments = tail sample_argv) then debbindiff.Parsed sample_args
  else if decide (arguments = ["--version"]) then debbindiff.SystemExit 0
  else debbindiff.SystemExit 2.
Definition sample_compare_files (file1 file2 : string)
  : debbindiff.outcome (list string) :=
  debbindiff.Returns ["control differs"].
Definition sample_open (path : string) : debbindiff.outcome unit :=
  debbindiff.Returns tt.
Definition failing_output_html (differences : list string)
    (css_url : option string) (output : debbindiff.stream)
    (max_page_size : option Z) : debbindiff.outcome unit :=
  debbindiff.Raises.
Definition sample_output_text (differences : list string)
    (output : debbindiff.stream) : debbindiff.outcome unit :=
  debbindiff.Returns tt.

(** Comparing always succeeds, with the pair of names. *)
Definition sample_compare (file1 file2 : File) (note : comment)
  : result (string * string) :=
  Ok (file_name file1, file_name file2).

(** Comparing fails on a [MissingFile] of ours. *)
Definition fragile_compare (file1 file2 : File) (note : comment)
  : result (string * string) :=
  if is_missing file1 then Raise AttributeError
  else Ok (file_name file1, file_name file2).

(** * Properties *)

(** ** Lists *)

Lemma filter_Forall_id {A} (P : A → Prop) `{!∀ x, Decision (P x)} (l : list A) :
  Forall P l → filter P l = l.
Proof.
  induction 1 as [|x l Hx _ IH]; [done|].
  by rewrite filter_cons_True, IH.
Qed.

(** ** OrderedDict *)

Section ordered_dict_facts.
Context {V : Type}.
Implicit Types (d : OrderedDict V) (k : string) (v : V).

Lemma contains_true k d : contains k d = true ↔ k ∈ keys d.
Proof. unfold contains. apply bool_decide_eq_true. Qed.

Lemma contains_false k d : contains k d = false ↔ k ∉ keys d.
Proof. unfold contains. apply bool_decide_eq_false. Qed.

Lemma setitem_fresh d k v : k ∉ keys d → setitem d k v = d ++ [(k, v)].
Proof.
  induction d as [|[k' v'] d IH]; simpl; [done|].
  intros Hk. apply not_elem_of_cons in Hk as [Hne Hk].
  destruct (decide (k = k')); [done|]. by rewrite IH.
Qed.

Lemma keys_setitem d k v :
  keys (setitem d k v) = if decide (k ∈ keys d) then keys d else keys d ++ [k].
Proof.
  induction d as [|[k' v'] d IH]; simpl; [done|].
  destruct (decide (k = k')) as [->|Hne]; simpl.
  - rewrite decide_True; [done|]. apply elem_of_cons; by left.
  - unfold keys in *. rewrite IH.
    destruct (decide (k ∈ d.*1)) as [Hin|Hnin].
    + rewrite decide_True; [done|]. apply elem_of_cons; by right.
    + rewrite decide_False; [done|]. by intros [?|?]%elem_of_cons.
Qed.

Lemma NoDup_keys_setitem d k v : NoDup (keys d) → NoDup (keys (setitem d k v)).
Proof.
  intros Hd. rewrite keys_setitem. case_decide; [done|].
  apply NoDup_app. split_and!; [done| |apply NoDup_singleton].
  intros x Hx ->%list_elem_of_singleton. done.
Qed.

Lemma of_pairs_snoc (l : list (string * V)) p :
  of_pairs (l ++ [p]) = setitem (of_pairs l) p.1 p.2.
Proof. unfold of_pairs. by rewrite foldl_app. Qed.

Lemma NoDup_keys_of_pairs (l : list (string * V)) : NoDup (keys (of_pairs l)).
Proof.
  induction l as [|p l IH] using rev_ind; [apply NoDup_nil_2|].
  rewrite of_pairs_snoc. by apply NoDup_keys_setitem.
Qed.

Lemma elem_of_keys_of_pairs (l : list (string * V)) k :
  k ∈ keys (of_pairs l) ↔ k ∈ l.*1.
Proof.
  induction l as [|p l IH] using rev_ind; [done|].
  rewrite of_pairs_snoc, keys_setitem, fmap_app, elem_of_app. simpl.
  rewrite list_elem_of_singleton.
  case_decide as Hin.
  - rewrite IH. split; [tauto|]. intros [?| ->]; [done|]. by apply IH.
  - rewrite elem_of_app, list_elem_of_singleton, IH. done.
Qed.

(** [pop] removes the first item stored under the key. *)
Lemma pop_Ok k d v d' :
  pop k d = Ok (v, d') ↔
  ∃ d1 d2, d = d1 ++ (k, v) :: d2 ∧ (k ∉ keys d1) ∧ d' = d1 ++ d2.
Proof.
  revert d'. induction d as [|[k' v'] d IH]; intros d'; simpl.
  - split; [done|]. intros (d1 & d2 & Hd & _). by destruct d1.
  - destruct (decide (k = k')) as [->|Hne].
    + split.
      * intros [= <- <-]. exists [], d. split_and!; [done| |done].
        apply not_elem_of_nil.
      * intros (d1 & d2 & Hd & Hk & ->). destruct d1 as [|[k1 v1] d1].
        -- simpl in Hd. by injection Hd as -> ->.
        -- simpl in Hd. injection Hd as -> -> ->.
           exfalso. apply Hk. apply elem_of_cons; by left.
    + destruct (pop k d) as [[v0 d0]|e] eqn:Hpop; simpl.
      * split.
        -- intros [= -> <-]. destruct (proj1 (IH d0) eq_refl) as (d1 & d2 & -> & Hk & ->).
           exists ((k', v') :: d1), d2. split_and!; [done| |done].
           by intros [?|?]%elem_of_cons.
        -- intros (d1 & d2 & Hd & Hk & ->). destruct d1 as [|[k1 v1] d1].
           ++ simpl in Hd. injection Hd as <- _ _. done.
           ++ simpl in Hd. injection Hd as -> -> ->.
              apply not_elem_of_cons in Hk as [_ Hk].
              assert (Ok (v0, d0) = Ok (v, d1 ++ d2)) as [= -> ->]; [|done].
              apply IH. by exists d1, d2.
      * split; [done|].
        intros (d1 & d2 & Hd & Hk & ->). destruct d1 as [|[k1 v1] d1].
        -- simpl in Hd. injection Hd as <- _ _. done.
        -- simpl in Hd. injection Hd as -> -> ->.
           apply not_elem_of_cons in Hk as [_ Hk].
           assert (Raise e = Ok (v, d1 ++ d2)) as [=].
           apply IH. by exists d1, d2.
Qed.

Lemma pop_Raise k d e : pop k d = Raise e ↔ e = KeyError ∧ (k ∉ keys d).
Proof.
  revert e. induction d as [|[k' v'] d IH]; intros e; simpl.
  - split; [intros [= <-]; split; [done|apply not_elem_of_nil]|by intros [-> _]].
  - destruct (decide (k = k')) as [->|Hne].
    + split; [done|]. intros [_ Hk]. exfalso. apply Hk, elem_of_cons; by left.
    + destruct (pop k d) as [[v0 d0]|e0] eqn:Hpop; simpl.
      * split; [done|]. intros [-> Hk]. apply not_elem_of_cons in Hk as [_ Hk].
        exfalso. by assert (Ok (v0, d0) = Raise KeyError) as [=] by by apply IH.
      * split.
        -- intros [= ->]. destruct (proj1 (IH e) eq_refl) as [-> Hk].
           split; [done|]. by intros [?|?]%elem_of_cons.
        -- intros [-> Hk]. by destruct (proj1 (IH e0) eq_refl) as [-> _].
Qed.

Lemma pop_elem_of k d : k ∈ keys d → ∃ v d', pop k d = Ok (v, d').
Proof.
  intros Hk. destruct (pop k d) as [[v d']|e] eqn:Hpop; [by eauto|].
  apply pop_Raise in Hpop as [_ ?]. done.
Qed.

(** Members of [d] whose name is not among [ks]. *)
Lemma pop_NoDup k d v d' :
  NoDup (keys d) → pop k d = Ok (v, d') →
  (k, v) ∈ d ∧ d' = filter (λ p, p.1 ≠ k) d.
Proof.
  intros Hd (d1 & d2 & -> & Hk & ->)%pop_Ok. split.
  { apply elem_of_app. right. apply elem_of_cons. by left. }
  unfold keys in *. rewrite fmap_app in Hd. simpl in Hd.
  apply NoDup_app in Hd as (_ & Hdisj & Hd2).
  apply NoDup_cons in Hd2 as [Hk2 _].
  rewrite filter_app, filter_cons_False by (simpl; tauto).
  f_equal; symmetry; apply filter_Forall_id, Forall_forall;
    intros [k0 v0] Hin; simpl; intros ->.
  - apply Hk. apply list_elem_of_fmap. by exists (k, v0).
  - apply Hk2. apply list_elem_of_fmap. by exists (k, v0).
Qed.
End ordered_dict_facts.

Lemma keys_filter {V} (Q : string → Prop) `{!∀ k, Decision (Q k)}
    (d : OrderedDict V) :
  keys (filter (λ p, Q p.1) d) = filter Q (keys d).
Proof.
  unfold keys. induction d as [|[k v] d IH]; [done|].
  rewrite fmap_cons, !filter_cons. simpl.
  case_decide; [rewrite fmap_cons|]; by rewrite IH.
Qed.

Lemma keys_without {V} ks (d : OrderedDict V) :
  keys (without ks d) = filter (.∉ ks) (keys d).
Proof. unfold without. exact (keys_filter (.∉ ks) d). Qed.

Lemma NoDup_keys_without {V} ks (d : OrderedDict V) :
  NoDup (keys d) → NoDup (keys (without ks d)).
Proof. rewrite keys_without. apply NoDup_filter. Qed.

Lemma without_cons {V} k ks (d : OrderedDict V) :
  without (k :: ks) d = without ks (filter (λ p, p.1 ≠ k) d).
Proof.
  unfold without. rewrite list_filter_filter. apply list_filter_iff.
  intros [k0 v0]. simpl. rewrite not_elem_of_cons. tauto.
Qed.


(** The loop takes its members with [popitem(last=False)] until the
    dictionary is empty. *)
Lemma exact_name_loop_unfold my_members my_reminders other_members :
  exact_name_loop my_members my_reminders other_members
  = match popitem_first my_members with
    | Raise _ => ([], Ok (my_reminders, other_members))
    | Ok ((my_member_name, my_member), my_members') =>
        if contains my_member_name other_members then
          match pop my_member_name other_members with
          | Raise e => ([], Raise e)
          | Ok (other_member, other_members') =>
              let (out, st) :=
                exact_name_loop my_members' my_reminders other_members' in
              ((my_member, other_member, NO_COMMENT) :: out, st)
          end
        else
          exact_name_loop my_members'
            (setitem my_reminders my_member_name my_member) other_members
    end.
Proof. by destruct my_members as [|[n m] my]. Qed.

(** ** The traced run erases to the run *)

Section erasure.
Variable perform_fuzzy_matching :
  OrderedDict File → OrderedDict File → list candidate.
Variable config : Config.

Lemma exact_name_trace_erase my_members my_reminders other_members :
  exact_name_loop my_members my_reminders other_members
  = ((fmap ev_pairing (exact_name_trace my_members my_reminders other_members).1),
     (exact_name_trace my_members my_reminders other_members).2).
Proof.
  revert my_reminders other_members.
  induction my_members as [|[n m] my IH]; intros rem other; simpl; [done|].
  destruct (contains n other); [|apply IH].
  destruct (pop n other) as [[o other']|e]; [|done].
  rewrite IH. by destruct (exact_name_trace my rem other').
Qed.

Lemma fuzzy_trace_erase matches my_members other_members :
  fuzzy_loop matches my_members other_members
  = ((fmap ev_pairing (fuzzy_trace matches my_members other_members).1),
     (fuzzy_trace matches my_members other_members).2).
Proof.
  revert my_members other_members.
  induction matches as [|[[a b] s] ms IH]; intros my other; simpl; [done|].
  destruct (pop a my) as [[m my']|e]; [|done].
  destruct (pop b other) as [[o other']|e]; [|done].
  rewrite IH. by destruct (fuzzy_trace ms my' other').
Qed.

Lemma added_removed_trace_erase my_members other_members :
  ev_pairing <$> added_removed_trace my_members other_members
  = added_removed my_members other_members.
Proof.
  unfold added_removed_trace, added_removed, values.
  rewrite fmap_app, <-!list_fmap_compose. done.
Qed.

Lemma pairing_passes_trace_erase my_members other_members :
  gen_map ev_pairing
    (pairing_passes_trace perform_fuzzy_matching config my_members other_members)
  = pairing_passes perform_fuzzy_matching config my_members other_members.
Proof.
  unfold pairing_passes, pairing_passes_trace.
  rewrite exact_name_trace_erase.
  destruct (exact_name_trace my_members [] other_members) as [E [[rm ro]|e]];
    simpl; [|done].
  rewrite fuzzy_trace_erase.
  destruct (fuzzy_trace _ rm ro) as [F [[m' o']|e]]; simpl; unfold gen_map; simpl.
  - rewrite !fmap_app. destruct (new_file config).
    + by rewrite added_removed_trace_erase.
    + done.
  - by rewrite fmap_app.
Qed.

Lemma comparisons_trace_erase self other :
  gen_map ev_pairing (comparisons_trace perform_fuzzy_matching config self other)
  = comparisons perform_fuzzy_matching config self other.
Proof.
  unfold comparisons, comparisons_trace.
  destruct (get_members self) as [m0|]; [|done].
  destruct (get_members other) as [o0|]; [|done].
  destruct (get_nested_container self) as [n1|]; [|done].
  destruct (get_nested_container other) as [n2|]; [|done]. simpl.
  assert (gen_map ev_pairing
            (gen_try (unpack n1 m0) (λ my,
             gen_try (unpack n2 o0) (λ om,
               pairing_passes_trace perform_fuzzy_matching config my om)))
          = gen_try (unpack n1 m0) (λ my,
             gen_try (unpack n2 o0) (λ om,
               pairing_passes perform_fuzzy_matching config my om))) as Hp.
  { destruct (unpack n1 m0); [|done]. destruct (unpack n2 o0); [|done].
    apply pairing_passes_trace_erase. }
  destruct n1, n2; try exact Hp.
  destruct (popitem m0); [|done]. by destruct (popitem o0).
Qed.
End erasure.

(** ** What each loop does *)

Lemma filter_ext_in {A} (P Q : A → Prop)
    `{!∀ x, Decision (P x), !∀ x, Decision (Q x)} (l : list A) :
  (∀ x, x ∈ l → P x ↔ Q x) → filter P l = filter Q l.
Proof.
  induction l as [|x l IH]; intros HPQ; [done|].
  rewrite !filter_cons, IH.
  - apply decide_ext, HPQ, elem_of_cons. by left.
  - intros y Hy. apply HPQ, elem_of_cons. by right.
Qed.

Lemma without_nil {V} (d : OrderedDict V) : without [] d = d.
Proof.
  apply filter_Forall_id, Forall_forall. intros p _. apply not_elem_of_nil.
Qed.

Lemma filter_ne_fresh {V} k (d : OrderedDict V) :
  k ∉ keys d → filter (λ p, p.1 ≠ k) d = d.
Proof.
  intros Hk. apply filter_Forall_id, Forall_forall. intros [k0 v0] Hin; simpl.
  intros ->. apply Hk, list_elem_of_fmap. by exists (k, v0).
Qed.

Lemma elem_of_keys {V} k v (d : OrderedDict V) : (k, v) ∈ d → k ∈ keys d.
Proof. intros Hin. apply list_elem_of_fmap. by exists (k, v). Qed.

Lemma names_mine_cons p a b x tr :
  names_mine (Event p a b x :: tr) = option_list a ++ names_mine tr.
Proof. by destruct a. Qed.

Lemma names_theirs_cons p a b x tr :
  names_theirs (Event p a b x :: tr) = option_list b ++ names_theirs tr.
Proof. by destruct b. Qed.

Lemma names_mine_app t1 t2 : names_mine (t1 ++ t2) = names_mine t1 ++ names_mine t2.
Proof. apply omap_app. Qed.

Lemma names_theirs_app t1 t2 :
  names_theirs (t1 ++ t2) = names_theirs t1 ++ names_theirs t2.
Proof. apply omap_app. Qed.

Lemma event_sound_mono my my' other other' e :
  my ⊆ my' → other ⊆ other' →
  event_sound my other e → event_sound my' other' e.
Proof.
  intros Hmy Hother. destruct e as [p a b [[m t] c]]. unfold event_sound. simpl.
  destruct p, a, b; intuition auto.
Qed.

Lemma keys_cons {V} k (v : V) d : keys ((k, v) :: d) = k :: keys d.
Proof. done. Qed.

Lemma keys_app {V} (d1 d2 : OrderedDict V) : keys (d1 ++ d2) = keys d1 ++ keys d2.
Proof. apply fmap_app. Qed.

Lemma exact_name_trace_spec (my rem other : OrderedDict File) :
  NoDup (keys my) → NoDup (keys other) →
  (∀ k, k ∈ keys my → k ∉ keys rem) →
  ∃ E, exact_name_trace my rem other
       = (E, Ok (rem ++ without (keys other) my, without (keys my) other))
     ∧ names_mine E = filter (.∈ keys other) (keys my)
     ∧ names_theirs E = filter (.∈ keys other) (keys my)
     ∧ Forall (λ e, ev_pass e = ExactName ∧ event_sound my other e) E.
Proof.
  revert rem other.
  induction my as [|[n m] my IH]; intros rem other Hmy Hother Hrem.
  { exists []. simpl. rewrite without_nil. unfold without. simpl.
    by rewrite app_nil_r. }
  rewrite keys_cons in Hmy, Hrem |- *.
  apply NoDup_cons in Hmy as [Hn Hmy].
  assert (∀ k, k ∈ keys my → k ∉ keys rem) as Hrem'.
  { intros k Hk. apply Hrem, elem_of_cons. by right. }
  assert (n ∉ keys rem) as Hnr by (apply Hrem, elem_of_cons; by left).
  simpl. destruct (contains n other) eqn:Hc.
  - apply contains_true in Hc.
    destruct (pop_elem_of _ _ Hc) as (o & other' & Hpop). rewrite Hpop.
    destruct (pop_NoDup _ _ _ _ Hother Hpop) as [Ho ->].
    set (other' := filter (λ p : string * File, p.1 ≠ n) other).
    assert (keys other' = filter (.≠ n) (keys other)) as Hk'
      by exact (keys_filter (.≠ n) other).
    assert (∀ k, k ∈ keys my → k ∈ keys other' ↔ k ∈ keys other) as Hsame.
    { intros k Hk. rewrite Hk', list_elem_of_filter. split; [tauto|].
      intros ?. split; [|done]. by intros ->. }
    destruct (IH rem other') as (E & HE & Hm & Ht & Hs); [done| |done|].
    { rewrite Hk'. by apply NoDup_filter. }
    assert (filter (.∈ keys other') (keys my) = filter (.∈ keys other) (keys my))
      as Hf by by apply filter_ext_in.
    assert (without (keys other') my = without (keys other) ((n, m) :: my)) as H1.
    { unfold without at 2. rewrite filter_cons_False by (simpl; tauto).
      apply filter_ext_in. intros [k v] Hin. simpl.
      by rewrite (Hsame k (elem_of_keys _ _ _ Hin)). }
    assert (without (keys my) other' = without (n :: keys my) other) as H2
      by by rewrite without_cons.
    rewrite HE, H1, H2. eexists. split_and!; [reflexivity| | |].
    + by rewrite names_mine_cons, Hm, Hf, filter_cons_True.
    + by rewrite names_theirs_cons, Ht, Hf, filter_cons_True.
    + apply Forall_cons. split.
      * split; [done|]. unfold event_sound. simpl.
        split_and!; [done|apply elem_of_cons; by left|done|done].
      * eapply Forall_impl; [exact Hs|]. intros e [? He]. split; [done|].
        eapply event_sound_mono; [| |exact He].
        -- intros x Hx. apply elem_of_cons. by right.
        -- apply list_subseteq_filter.
  - apply contains_false in Hc.
    rewrite setitem_fresh by done.
    destruct (IH (rem ++ [(n, m)]) other) as (E & HE & Hm & Ht & Hs); [done..| |].
    { intros k Hk. rewrite keys_app, elem_of_app. simpl.
      rewrite list_elem_of_singleton. intros [Hin| ->]; [|done].
      revert Hin. by apply Hrem'. }
    assert ((rem ++ [(n, m)]) ++ without (keys other) my
            = rem ++ without (keys other) ((n, m) :: my)) as H1.
    { unfold without at 2. rewrite filter_cons_True by done.
      by rewrite <-app_assoc. }
    assert (without (keys my) other = without (n :: keys my) other) as H2
      by by rewrite without_cons, filter_ne_fresh.
    rewrite HE, H1, H2. exists E. split_and!; [reflexivity| | |].
    + by rewrite Hm, filter_cons_False.
    + by rewrite Ht, filter_cons_False.
    + eapply Forall_impl; [exact Hs|]. intros e [? He]. split; [done|].
      eapply event_sound_mono; [|done|exact He].
      intros x Hx. apply elem_of_cons. by right.
Qed.

Lemma fuzzy_trace_spec ms (my other : OrderedDict File) :
  NoDup (keys my) → NoDup (keys other) → well_matched ms my other →
  ∃ F, fuzzy_trace ms my other
       = (F, Ok (without (cand_mine <$> ms) my, without (cand_theirs <$> ms) other))
     ∧ names_mine F = cand_mine <$> ms
     ∧ names_theirs F = cand_theirs <$> ms
     ∧ Forall2 reflects F ms
     ∧ Forall (λ e, ev_pass e = Fuzzy ∧ event_sound my other e) F.
Proof.
  revert my other.
  induction ms as [|[[a b] s] ms IH]; intros my other Hmy Hother (Hm & Ht & Hin).
  { exists []. simpl. by rewrite !without_nil. }
  rewrite fmap_cons in Hm, Ht. simpl in Hm, Ht.
  apply NoDup_cons in Hm as [Ha Hm]. apply NoDup_cons in Ht as [Hb Ht].
  destruct (Hin (a, b, s)) as [Ha' Hb']; [apply elem_of_cons; by left|].
  unfold cand_mine, cand_theirs in Ha', Hb'. simpl in Ha', Hb'.
  destruct (pop_elem_of _ _ Ha') as (m & my' & Hpa).
  destruct (pop_elem_of _ _ Hb') as (o & other' & Hpb).
  simpl. rewrite Hpa, Hpb.
  destruct (pop_NoDup _ _ _ _ Hmy Hpa) as [Hma ->].
  destruct (pop_NoDup _ _ _ _ Hother Hpb) as [Hob ->].
  set (my' := filter (λ p : string * File, p.1 ≠ a) my).
  set (other' := filter (λ p : string * File, p.1 ≠ b) other).
  assert (keys my' = filter (.≠ a) (keys my)) as Hkm
    by exact (keys_filter (.≠ a) my).
  assert (keys other' = filter (.≠ b) (keys other)) as Hko
    by exact (keys_filter (.≠ b) other).
  destruct (IH my' other') as (F & HF & Hnm & Hnt & Hr & Hs).
  { rewrite Hkm. by apply NoDup_filter. }
  { rewrite Hko. by apply NoDup_filter. }
  { split_and!; [done..|]. intros c Hc.
    destruct (Hin c) as [Hc1 Hc2]; [apply elem_of_cons; by right|].
    rewrite Hkm, Hko, !list_elem_of_filter. split_and!; [|done| |done].
    - intros Heq. apply Ha. rewrite <-Heq. apply list_elem_of_fmap. by exists c.
    - intros Heq. apply Hb. rewrite <-Heq. apply list_elem_of_fmap. by exists c. }
  rewrite HF. eexists. split_and!.
  - unfold my', other'. by rewrite <-!without_cons.
  - by rewrite names_mine_cons, Hnm.
  - by rewrite names_theirs_cons, Hnt.
  - apply Forall2_cons. split; [done|exact Hr].
  - apply Forall_cons. split.
    + split; [done|]. unfold event_sound. simpl. split_and!; [done..|by exists s].
    + eapply Forall_impl; [exact Hs|]. intros e [? He]. split; [done|].
      eapply event_sound_mono; [| |exact He]; apply list_subseteq_filter.
Qed.

Lemma added_removed_trace_names_mine my other :
  names_mine (added_removed_trace my other) = keys my.
Proof.
  unfold added_removed_trace. rewrite names_mine_app.
  assert (∀ d : OrderedDict File, names_mine
            ((λ p : string * File, Event Residual None (Some p.1)
               (MissingFile dev_null (Some p.2), p.2, NO_COMMENT)) <$> d) = []) as ->.
  { induction d as [|p d IH]; [done|]. by rewrite fmap_cons, names_mine_cons. }
  rewrite app_nil_r. induction my as [|[k v] d IH]; [done|].
  by rewrite fmap_cons, names_mine_cons, IH.
Qed.

Lemma added_removed_trace_names_theirs my other :
  names_theirs (added_removed_trace my other) = keys other.
Proof.
  unfold added_removed_trace. rewrite names_theirs_app.
  assert (∀ d : OrderedDict File, names_theirs
            ((λ p : string * File, Event Residual (Some p.1) None
               (p.2, MissingFile dev_null (Some p.2), NO_COMMENT)) <$> d) = []) as ->.
  { induction d as [|p d IH]; [done|]. by rewrite fmap_cons, names_theirs_cons. }
  simpl. induction other as [|[k v] d IH]; [done|].
  by rewrite fmap_cons, names_theirs_cons, IH.
Qed.

Lemma added_removed_trace_sound my other :
  Forall (λ e, ev_pass e = Residual ∧ event_sound my other e)
    (added_removed_trace my other).
Proof.
  unfold added_removed_trace. apply Forall_app. split.
  - apply Forall_fmap, Forall_forall. intros [k v] Hin. simpl.
    split; [done|]. unfold event_sound. by simpl.
  - apply Forall_fmap, Forall_forall. intros [k v] Hin. simpl.
    split; [done|]. unfold event_sound. by simpl.
Qed.

(** Whatever the matcher answers, the fuzzy loop pairs only members that
    are still in the dictionaries, and none twice: [pop] takes each member
    out, and a name that is not there ends the run with [KeyError]. *)
Lemma fuzzy_trace_any ms (my other : OrderedDict File) :
  NoDup (keys my) → NoDup (keys other) →
  ∃ F st, fuzzy_trace ms my other = (F, st)
    ∧ Forall (λ e, ev_pass e = Fuzzy ∧ event_sound my other e) F
    ∧ NoDup (names_mine F) ∧ NoDup (names_theirs F)
    ∧ names_mine F ⊆ keys my ∧ names_theirs F ⊆ keys other
    ∧ match st with
      | Ok (my', other') =>
          my' = without (names_mine F) my
          ∧ other' = without (names_theirs F) other
      | Raise e => e = KeyError
      end.
Proof.
  revert my other.
  induction ms as [|[[a b] s] ms IH]; intros my other Hmy Hother.
  { exists [], (Ok (my, other)). simpl. rewrite !without_nil.
    split_and!; try done; try apply NoDup_nil_2; apply list_subseteq_nil. }
  simpl. destruct (pop a my) as [[m my']|e] eqn:Hpa.
  2:{ apply pop_Raise in Hpa as [-> _]. exists [], (Raise KeyError).
      split_and!; try done; try apply NoDup_nil_2; apply list_subseteq_nil. }
  destruct (pop b other) as [[o other']|e] eqn:Hpb.
  2:{ apply pop_Raise in Hpb as [-> _]. exists [], (Raise KeyError).
      split_and!; try done; try apply NoDup_nil_2; apply list_subseteq_nil. }
  destruct (pop_NoDup _ _ _ _ Hmy Hpa) as [Hma ->].
  destruct (pop_NoDup _ _ _ _ Hother Hpb) as [Hob ->].
  set (my' := filter (λ p : string * File, p.1 ≠ a) my) in *.
  set (other' := filter (λ p : string * File, p.1 ≠ b) other) in *.
  assert (keys my' = filter (.≠ a) (keys my)) as Hkm
    by exact (keys_filter (.≠ a) my).
  assert (keys other' = filter (.≠ b) (keys other)) as Hko
    by exact (keys_filter (.≠ b) other).
  destruct (IH my' other') as (F & st & HF & Hs & Hn1 & Hn2 & Hs1 & Hs2 & Hst).
  { rewrite Hkm. by apply NoDup_filter. }
  { rewrite Hko. by apply NoDup_filter. }
  rewrite HF. eexists _, st. split; [reflexivity|].
  rewrite names_mine_cons, names_theirs_cons. simpl. split_and!.
  - apply Forall_cons. split.
    + split; [done|]. unfold event_sound. simpl. split_and!; [done..|by exists s].
    + eapply Forall_impl; [exact Hs|]. intros e [? He]. split; [done|].
      eapply event_sound_mono; [| |exact He]; apply list_subseteq_filter.
  - apply NoDup_cons. split; [|done]. intros Ha%Hs1.
    rewrite Hkm in Ha. by apply list_elem_of_filter in Ha as [? _].
  - apply NoDup_cons. split; [|done]. intros Hb%Hs2.
    rewrite Hko in Hb. by apply list_elem_of_filter in Hb as [? _].
  - intros k [->|Hk%Hs1]%elem_of_cons; [by eapply elem_of_keys|].
    rewrite Hkm in Hk. by apply list_elem_of_filter in Hk as [_ ?].
  - intros k [->|Hk%Hs2]%elem_of_cons; [by eapply elem_of_keys|].
    rewrite Hko in Hk. by apply list_elem_of_filter in Hk as [_ ?].
  - destruct st as [[my'' other'']|e]; [|done].
    destruct Hst as [-> ->]. unfold my', other'. by rewrite <-!without_cons.
Qed.

(** ** The three passes together *)

Lemma split_by_names (l ks : list string) :
  NoDup l → NoDup ks → ks ⊆ l → ks ++ filter (.∉ ks) l ≡ₚ l.
Proof.
  intros Hl Hks Hsub. apply NoDup_Permutation; [|done|].
  - apply NoDup_app. split_and!; [done| |by apply NoDup_filter].
    intros x Hx [Hnx _]%list_elem_of_filter. done.
  - intros x. rewrite elem_of_app, list_elem_of_filter. split.
    + intros [Hx|[_ Hx]]; [by apply Hsub|done].
    + intros Hx. destruct (decide (x ∈ ks)); [by left|by right].
Qed.

Section passes.
Variable perform_fuzzy_matching :
  OrderedDict File → OrderedDict File → list candidate.
Variable config : Config.
Hypothesis matcher_ok : matcher_contract perform_fuzzy_matching.

(** The run is an exact-name segment, a fuzzy segment that follows the
    matcher's answer on the members without a namesake, and the residual
    segment over what the matcher left. *)
Lemma pairing_passes_trace_spec (my other : OrderedDict File) :
  NoDup (keys my) → NoDup (keys other) →
  let rm := without (keys other) my in
  let ro := without (keys my) other in
  let ms := perform_fuzzy_matching rm ro in
  ∃ E F,
    pairing_passes_trace perform_fuzzy_matching config my other
    = Gen (E ++ F ++
           (if new_file config
            then added_removed_trace (without (cand_mine <$> ms) rm)
                   (without (cand_theirs <$> ms) ro)
            else []))
        None
    ∧ names_mine E = filter (.∈ keys other) (keys my)
    ∧ names_theirs E = filter (.∈ keys other) (keys my)
    ∧ Forall (λ e, ev_pass e = ExactName ∧ event_sound my other e) E
    ∧ names_mine F = cand_mine <$> ms
    ∧ names_theirs F = cand_theirs <$> ms
    ∧ Forall2 reflects F ms
    ∧ Forall (λ e, ev_pass e = Fuzzy ∧ event_sound my other e) F.
Proof.
  intros Hmy Hother rm ro ms.
  destruct (exact_name_trace_spec my [] other) as (E & HE & Em & Et & Es);
    [done..|intros k _; apply not_elem_of_nil|].
  simpl in HE. fold rm ro in HE.
  assert (NoDup (keys rm)) as Hrm by by apply NoDup_keys_without.
  assert (NoDup (keys ro)) as Hro by by apply NoDup_keys_without.
  destruct (fuzzy_trace_spec ms rm ro) as (F & HF & Fm & Ft & Fr & Fs);
    [done..|by apply matcher_ok|].
  exists E, F. split_and!; [|done..|].
  - unfold pairing_passes_trace. rewrite HE. fold ms. by rewrite HF.
  - eapply Forall_impl; [exact Fs|]. intros e [? He]. split; [done|].
    eapply event_sound_mono; [| |exact He]; apply list_subseteq_filter.
Qed.

(** Under the flag every name of either dictionary is consumed exactly
    once; every event is sound. *)
Lemma pairing_passes_trace_complete (my other : OrderedDict File) :
  NoDup (keys my) → NoDup (keys other) → new_file config = true →
  let tr := pairing_passes_trace perform_fuzzy_matching config my other in
  raised tr = None
  ∧ names_mine (yielded tr) ≡ₚ keys my
  ∧ names_theirs (yielded tr) ≡ₚ keys other
  ∧ Forall (event_sound my other) (yielded tr).
Proof.
  intros Hmy Hother Hflag tr.
  destruct (pairing_passes_trace_spec my other Hmy Hother)
    as (E & F & Htr & Em & Et & Es & Fm & Ft & Fr & Fs).
  unfold tr. rewrite Htr, Hflag. simpl.
  set (rm := without (keys other) my) in *.
  set (ro := without (keys my) other) in *.
  set (ms := perform_fuzzy_matching rm ro) in *.
  assert (NoDup (keys rm)) as Hrm by by apply NoDup_keys_without.
  assert (NoDup (keys ro)) as Hro by by apply NoDup_keys_without.
  destruct (matcher_ok rm ro Hrm Hro) as (Hm & Ht & Hin). fold ms in Hm, Ht, Hin.
  split_and!; [done| | |].
  - rewrite !names_mine_app, added_removed_trace_names_mine, Em, Fm.
    rewrite keys_without, split_by_names; [|done..|].
    + unfold rm. rewrite keys_without.
      rewrite <-(filter_app_complement (.∈ keys other) (keys my)) at 3. done.
    + intros k (c & -> & Hc)%list_elem_of_fmap. by apply Hin.
  - rewrite !names_theirs_app, added_removed_trace_names_theirs, Et, Ft.
    rewrite keys_without, split_by_names; [|done..|].
    + unfold ro. rewrite keys_without.
      rewrite <-(filter_app_complement (.∈ keys my) (keys other)) at 2.
      apply Permutation_app; [|done].
      apply NoDup_Permutation; [by apply NoDup_filter..|].
      intros k. rewrite !list_elem_of_filter. tauto.
    + intros k (c & -> & Hc)%list_elem_of_fmap. by apply Hin.
  - rewrite !Forall_app. split_and!.
    + eapply Forall_impl; [exact Es|]. by intros e [_ ?].
    + eapply Forall_impl; [exact Fs|]. by intros e [_ ?].
    + eapply Forall_impl; [apply added_removed_trace_sound|].
      intros e [_ He]. eapply event_sound_mono; [| |exact He].
      * etrans; apply list_subseteq_filter.
      * etrans; apply list_subseteq_filter.
Qed.

(** A name that both dictionaries have is consumed on both sides by one
  and the same pairing. *)
Lemma pairing_passes_trace_namesake (my other : OrderedDict File) e n :
NoDup (keys my) → NoDup (keys other) →
e ∈ yielded (pairing_passes_trace perform_fuzzy_matching config my other) →
(ev_mine e = Some n ∧ n ∈ keys other)
∨ (ev_theirs e = Some n ∧ n ∈ keys my) →
ev_mine e = Some n ∧ ev_theirs e = Some n.
Proof.
intros Hmy Hother.
destruct (pairing_passes_trace_spec my other Hmy Hother)
  as (E & F & Htr & Em & Et & Es & Fm & Ft & Fr & Fs).
rewrite Htr. simpl.
set (rm := without (keys other) my) in *.
set (ro := without (keys my) other) in *.
set (ms := perform_fuzzy_matching rm ro) in *.
destruct (matcher_ok rm ro) as (_ & _ & Hin);
  [by apply NoDup_keys_without..|]. fold ms in Hin.
assert (∀ k, k ∈ keys rm → k ∉ keys other) as Hrm.
{ intros k. unfold rm. rewrite keys_without, list_elem_of_filter. tauto. }
assert (∀ k, k ∈ keys ro → k ∉ keys my) as Hro.
{ intros k. unfold ro. rewrite keys_without, list_elem_of_filter. tauto. }
rewrite !elem_of_app. intros [He|[He|He]] Hn.
- eapply Forall_forall in Es as [Hp Hs]; [|exact He].
  destruct e as [p a b [[m t] c]]. unfold event_sound in Hs. simpl in *.
  subst p. destruct a as [a|], b as [b|]; try done.
  destruct Hs as [-> _]. destruct Hn as [[? _]|[? _]]; by split.
- exfalso. destruct Hn as [[Hn Hk]|[Hn Hk]].
  + assert (n ∈ names_mine F) as Hin'
      by (apply list_elem_of_omap; by exists e).
    rewrite Fm in Hin'. apply list_elem_of_fmap in Hin' as (c & -> & Hc).
    apply (Hrm (cand_mine c)); [by apply Hin|done].
  + assert (n ∈ names_theirs F) as Hin'
      by (apply list_elem_of_omap; by exists e).
    rewrite Ft in Hin'. apply list_elem_of_fmap in Hin' as (c & -> & Hc).
    apply (Hro (cand_theirs c)); [by apply Hin|done].
- exfalso. destruct (new_file config); [|by apply elem_of_nil in He].
  destruct Hn as [[Hn Hk]|[Hn Hk]].
  + assert (n ∈ names_mine (added_removed_trace (without (cand_mine <$> ms) rm)
                              (without (cand_theirs <$> ms) ro))) as Hin'
      by (apply list_elem_of_omap; by exists e).
    rewrite added_removed_trace_names_mine, keys_without in Hin'.
    apply list_elem_of_filter in Hin' as [_ Hin']. by apply (Hrm n).
  + assert (n ∈ names_theirs (added_removed_trace (without (cand_mine <$> ms) rm)
                                (without (cand_theirs <$> ms) ro))) as Hin'
      by (apply list_elem_of_omap; by exists e).
    rewrite added_removed_trace_names_theirs, keys_without in Hin'.
    apply list_elem_of_filter in Hin' as [_ Hin']. by apply (Hro n).
Qed.
End passes.

(** ** From containers to dictionaries *)

Lemma fetch_all_names member names l :
  fetch_all member names = Ok l → l.*1 = names.
Proof.
  revert l. induction names as [|n names IH]; intros l; simpl.
  { by intros [= <-]. }
  destruct (member n) as [f|]; [|done]. simpl.
  destruct (fetch_all member names) as [rest|]; [|done]. simpl.
  intros [= <-]. simpl. f_equal. by apply IH.
Qed.

Lemma fetch_all_members member names l k f :
  fetch_all member names = Ok l → (k, f) ∈ l → member k = Ok f.
Proof.
  revert l. induction names as [|n names IH]; intros l; simpl.
  { intros [= <-] ?%elem_of_nil. done. }
  destruct (member n) as [f0|] eqn:Hn; [|done]. simpl.
  destruct (fetch_all member names) as [rest|]; [|done]. simpl.
  intros [= <-] [[= -> ->]|Hin]%elem_of_cons; [done|]. by eapply IH.
Qed.

Lemma get_members_NoDup self d : get_members self = Ok d → NoDup (keys d).
Proof.
  unfold get_members. destruct (get_all_members self); [|done].
  intros [= <-]. apply NoDup_keys_of_pairs.
Qed.

Lemma get_members_names self d names k :
  get_members self = Ok d → get_member_names self = Ok names →
  k ∈ keys d ↔ k ∈ names.
Proof.
  unfold get_members, get_all_members. intros Hd Hn. rewrite Hn in Hd.
  simpl in Hd. destruct (fetch_all _ names) as [l|] eqn:Hl; [|done].
  injection Hd as <-. rewrite elem_of_keys_of_pairs.
  by rewrite (fetch_all_names _ _ _ Hl).
Qed.

Lemma unpack_NoDup nested members d :
  NoDup (keys members) → unpack nested members = Ok d → NoDup (keys d).
Proof.
  destruct nested as [c|]; simpl.
  - intros _. apply get_members_NoDup.
  - by intros ? [= <-].
Qed.

(** Unless both sides nest, [comparisons] is the three passes over the
    unpacked dictionaries. *)
Lemma comparisons_trace_passes matcher cfg self other m0 o0 n1 n2 my om :
  get_members self = Ok m0 → get_members other = Ok o0 →
  get_nested_container self = Ok n1 → get_nested_container other = Ok n2 →
  n1 = None ∨ n2 = None →
  unpack n1 m0 = Ok my → unpack n2 o0 = Ok om →
  comparisons_trace matcher cfg self other
  = pairing_passes_trace matcher cfg my om.
Proof.
  intros Hm Ho H1 H2 Hn Hu1 Hu2. unfold comparisons_trace.
  rewrite Hm, Ho, H1, H2. simpl.
  destruct n1, n2; try (by destruct Hn); by rewrite Hu1, Hu2.
Qed.

Lemma comparisons_passes matcher cfg self other m0 o0 n1 n2 my om :
  get_members self = Ok m0 → get_members other = Ok o0 →
  get_nested_container self = Ok n1 → get_nested_container other = Ok n2 →
  n1 = None ∨ n2 = None →
  unpack n1 m0 = Ok my → unpack n2 o0 = Ok om →
  comparisons matcher cfg self other = pairing_passes matcher cfg my om.
Proof.
  intros Hm Ho H1 H2 Hn Hu1 Hu2. unfold comparisons.
  rewrite Hm, Ho, H1, H2. simpl.
  destruct n1, n2; try (by destruct Hn); by rewrite Hu1, Hu2.
Qed.

(** ** The greedy matcher *)

Lemma sublist_filter_mono {A} (P : A → Prop) `{!∀ x, Decision (P x)} (l1 l2 : list A) :
  l1 `sublist_of` l2 → filter P l1 `sublist_of` filter P l2.
Proof.
  induction 1 as [|x l1 l2 _ IH|x l1 l2 _ IH]; [done| |].
  - rewrite !filter_cons. case_decide; [by constructor|done].
  - rewrite filter_cons. case_decide; [by constructor|done].
Qed.

Lemma StronglySorted_sublist {A} (R : relation A) (l1 l2 : list A) :
  l1 `sublist_of` l2 → StronglySorted R l2 → StronglySorted R l1.
Proof.
  induction 1 as [|x l1 l2 Hsub IH|x l1 l2 Hsub IH]; [done| |].
  - intros [Hs Hall]%StronglySorted_inv. constructor; [by apply IH|].
    apply Forall_forall. intros y Hy.
    eapply Forall_forall; [exact Hall|]. by eapply sublist_subseteq.
  - intros [Hs _]%StronglySorted_inv. by apply IH.
Qed.

Section greedy_matcher.
Variable similarity : File → File → Z.
Variable fuzzy_threshold : Z.

Lemma elem_of_cross_scores (my other : OrderedDict File) c :
  c ∈ cross_scores similarity my other →
  cand_mine c ∈ keys my ∧ cand_theirs c ∈ keys other.
Proof.
  unfold cross_scores. rewrite list_elem_of_bind.
  intros ([k v] & ([k' v'] & -> & Hq)%list_elem_of_fmap & Hp).
  unfold cand_mine, cand_theirs. simpl.
  split; by eapply elem_of_keys.
Qed.

Lemma insert_by_score_Permutation c l : insert_by_score c l ≡ₚ c :: l.
Proof.
  induction l as [|d l IH]; simpl; [done|].
  case_decide; [done|]. rewrite IH. apply Permutation_swap.
Qed.

Lemma sort_by_score_Permutation l : sort_by_score l ≡ₚ l.
Proof.
  induction l as [|c l IH]; simpl; [done|].
  by rewrite insert_by_score_Permutation, IH.
Qed.

Lemma insert_by_score_sorted c l :
  StronglySorted by_score l → StronglySorted by_score (insert_by_score c l).
Proof.
  induction l as [|d l IH]; simpl; intros Hl.
  { repeat constructor. }
  case_decide as Hle.
  - constructor; [done|]. apply StronglySorted_inv in Hl as [_ Hall].
    constructor; [done|]. eapply Forall_impl; [exact Hall|].
    intros x Hx. unfold by_score in *. lia.
  - apply StronglySorted_inv in Hl as [Hs Hall].
    constructor; [by apply IH|].
    rewrite insert_by_score_Permutation. constructor; [|done].
    unfold by_score. lia.
Qed.

Lemma sort_by_score_sorted l : StronglySorted by_score (sort_by_score l).
Proof.
  induction l as [|c l IH]; simpl; [constructor|].
  by apply insert_by_score_sorted.
Qed.

(** Stability: entries with the same score keep their relative order. *)
Lemma insert_by_score_stable s c l :
  StronglySorted by_score l →
  filter (λ x, cand_score x = s) (insert_by_score c l)
  = filter (λ x, cand_score x = s) (c :: l).
Proof.
  induction l as [|d l IH]; simpl; intros Hl; [done|].
  case_decide as Hle; [done|].
  apply StronglySorted_inv in Hl as [Hs Hall].
  rewrite filter_cons, IH by done. rewrite !filter_cons.
  destruct (decide (cand_score d = s)) as [Hd|Hd];
    destruct (decide (cand_score c = s)) as [Hc|Hc]; try done.
  lia.
Qed.

Lemma sort_by_score_stable s l :
  filter (λ x, cand_score x = s) (sort_by_score l)
  = filter (λ x, cand_score x = s) l.
Proof.
  induction l as [|c l IH]; simpl; [done|].
  rewrite insert_by_score_stable by apply sort_by_score_sorted.
  by rewrite !filter_cons, IH.
Qed.

Lemma greedy_accept_sublist cands mine theirs :
  greedy_accept cands mine theirs `sublist_of` cands.
Proof.
  revert mine theirs. induction cands as [|c cands IH]; intros mine theirs;
    simpl; [done|].
  case_decide; [apply sublist_cons, IH|apply sublist_skip, IH].
Qed.

Lemma greedy_accept_fresh cands mine theirs c :
  c ∈ greedy_accept cands mine theirs →
  (cand_mine c ∉ mine) ∧ (cand_theirs c ∉ theirs).
Proof.
  revert mine theirs. induction cands as [|d cands IH]; intros mine theirs;
    simpl; [by intros ?%elem_of_nil|].
  case_decide as Hd; [apply IH|].
  intros [->|Hc]%elem_of_cons; [tauto|].
  apply IH in Hc as [H1 H2].
  apply not_elem_of_cons in H1 as [_ H1]. apply not_elem_of_cons in H2 as [_ H2].
  done.
Qed.

Lemma greedy_accept_NoDup cands mine theirs :
  NoDup (cand_mine <$> greedy_accept cands mine theirs)
  ∧ NoDup (cand_theirs <$> greedy_accept cands mine theirs).
Proof.
  revert mine theirs. induction cands as [|d cands IH]; intros mine theirs;
    simpl; [split; apply NoDup_nil_2|].
  case_decide as Hd; [apply IH|].
  rewrite !fmap_cons.
  destruct (IH (cand_mine d :: mine) (cand_theirs d :: theirs)) as [H1 H2].
  split; (apply NoDup_cons; split; [|done]).
  - intros (c & Heq & Hc)%list_elem_of_fmap.
    apply greedy_accept_fresh in Hc as [Hc _].
    apply Hc. rewrite Heq. apply elem_of_cons. by left.
  - intros (c & Heq & Hc)%list_elem_of_fmap.
    apply greedy_accept_fresh in Hc as [_ Hc].
    apply Hc. rewrite Heq. apply elem_of_cons. by left.
Qed.

Lemma greedy_fuzzy_matching_sublist (my other : OrderedDict File) :
  greedy_fuzzy_matching similarity fuzzy_threshold my other
  `sublist_of` sort_by_score
     (filter (λ c, (fuzzy_threshold ≤ cand_score c)%Z)
        (cross_scores similarity my other)).
Proof. apply greedy_accept_sublist. Qed.

(** The modelled matcher honours the contract the engine relies on. *)
Lemma greedy_fuzzy_matching_contract :
  matcher_contract (greedy_fuzzy_matching similarity fuzzy_threshold).
Proof.
  intros my other _ _. unfold well_matched. split_and!.
  - apply greedy_accept_NoDup.
  - apply greedy_accept_NoDup.
  - intros c Hc. apply elem_of_cross_scores.
    apply (sublist_subseteq _ _ (greedy_fuzzy_matching_sublist my other)) in Hc.
    rewrite sort_by_score_Permutation in Hc.
    by apply list_elem_of_filter in Hc as [_ Hc].
Qed.

(** Accepted pairs come in descending score; pairs that tie keep the
    order of the listing (ours first, then theirs); none is below the
    threshold. *)
Lemma greedy_fuzzy_matching_order (my other : OrderedDict File) :
  let ms := greedy_fuzzy_matching similarity fuzzy_threshold my other in
  StronglySorted by_score ms
  ∧ (∀ s, filter (λ c, cand_score c = s) ms
          `sublist_of` cross_scores similarity my other)
  ∧ Forall (λ c, (fuzzy_threshold ≤ cand_score c)%Z) ms.
Proof.
  intros ms. pose proof (greedy_fuzzy_matching_sublist my other) as Hsub.
  fold ms in Hsub. split_and!.
  - eapply StronglySorted_sublist; [exact Hsub|apply sort_by_score_sorted].
  - intros s. etrans; [by apply sublist_filter_mono|].
    rewrite sort_by_score_stable. etrans; apply sublist_filter.
  - apply Forall_forall. intros c Hc.
    apply (sublist_subseteq _ _ Hsub) in Hc.
    rewrite sort_by_score_Permutation in Hc.
    by apply list_elem_of_filter in Hc as [Hc _].
Qed.
End greedy_matcher.

(** * The specification, property by property *)

(** C1.  For two containers without nested containers, with the
    [new_file] flag set and a matcher that honours its contract, the
    pairings of [comparisons] consume every member name of [self] exactly
    once on the left and every member name of [other] exactly once on the
    right, and a name both containers have is consumed on both sides by
    the same pairing: no name occurs in two pairings and none is omitted.
    The traced run erases to [comparisons], ends normally, and each event
    pairs the members stored under the names it records. *)
Theorem comparisons_pairs_every_member_once
    matcher cfg (self other : Container) names_a names_b my om :
  matcher_contract matcher →
  new_file cfg = true →
  get_nested_container self = Ok None →
  get_nested_container other = Ok None →
  get_member_names self = Ok names_a →
  get_member_names other = Ok names_b →
  get_members self = Ok my →
  get_members other = Ok om →
  let tr := comparisons_trace matcher cfg self other in
  gen_map ev_pairing tr = comparisons matcher cfg self other
  ∧ raised tr = None
  ∧ NoDup (names_mine (yielded tr))
  ∧ (∀ n, n ∈ names_mine (yielded tr) ↔ n ∈ names_a)
  ∧ NoDup (names_theirs (yielded tr))
  ∧ (∀ n, n ∈ names_theirs (yielded tr) ↔ n ∈ names_b)
  ∧ (∀ e n, e ∈ yielded tr →
       (ev_mine e = Some n ∧ n ∈ names_b)
       ∨ (ev_theirs e = Some n ∧ n ∈ names_a) →
       ev_mine e = Some n ∧ ev_theirs e = Some n)
  ∧ Forall (event_sound my om) (yielded tr).
Proof.
  intros Hmatcher Hflag Hn1 Hn2 Hnames_a Hnames_b Hmy Hom tr.
  assert (tr = pairing_passes_trace matcher cfg my om) as Htr.
  { unfold tr. eapply comparisons_trace_passes; eauto. }
  pose proof (get_members_NoDup _ _ Hmy) as Hnd1.
  pose proof (get_members_NoDup _ _ Hom) as Hnd2.
  destruct (pairing_passes_trace_complete matcher cfg Hmatcher my om Hnd1 Hnd2 Hflag)
    as (Hr & Hpm & Hpt & Hs).
  rewrite <-Htr in Hr, Hpm, Hpt, Hs.
  split_and!; [apply comparisons_trace_erase|done| | | | | |done].
  - by rewrite Hpm.
  - intros n. rewrite Hpm. by eapply get_members_names.
  - by rewrite Hpt.
  - intros n. rewrite Hpt. by eapply get_members_names.
  - intros e n He Hn. rewrite Htr in He.
    eapply (pairing_passes_trace_namesake matcher cfg Hmatcher my om);
      [done..|].
    rewrite (get_members_names _ _ _ n Hom Hnames_b).
    by rewrite (get_members_names _ _ _ n Hmy Hnames_a).
Qed.

Lemma comparisons_pairs_every_member_once_witness :
  matcher_contract sample_matcher
  ∧ new_file with_added_removed = true
  ∧ get_nested_container tar_a = Ok None
  ∧ get_nested_container tar_b = Ok None
  ∧ names_mine (yielded (comparisons_trace sample_matcher with_added_removed tar_a tar_b))
    = ["a.txt"; "b.txt"; "x"]
  ∧ names_theirs (yielded (comparisons_trace sample_matcher with_added_removed tar_a tar_b))
    = ["a.txt"; "c.txt"; "y"]
  ∧ NoDup (names_mine
             (yielded (comparisons_trace sample_matcher with_added_removed tar_a tar_b)))
  ∧ ∀ n, n ∈ names_mine
             (yielded (comparisons_trace sample_matcher with_added_removed tar_a tar_b))
         ↔ n ∈ ["a.txt"; "b.txt"; "x"].
Proof.
  pose proof (greedy_fuzzy_matching_contract sample_similarity 60) as Hc.
  destruct (comparisons_pairs_every_member_once sample_matcher with_added_removed
              tar_a tar_b ["a.txt"; "b.txt"; "x"] ["c.txt"; "a.txt"; "y"]
              [("a.txt", plain "a/a.txt"); ("b.txt", plain "a/b.txt"); ("x", plain "a/x")]
              [("c.txt", plain "b/c.txt"); ("a.txt", plain "b/a.txt"); ("y", plain "b/y")]
              Hc eq_refl eq_refl eq_refl eq_refl eq_refl eq_refl eq_refl)
    as (_ & _ & Hnd & Hin & _).
  split_and!; [exact Hc|reflexivity..|exact Hnd|exact Hin].
Defined.

(** When both sides nest, the one pairing is made of the items
    [popitem()] returns: the last-listed member of each wrapper. *)
Lemma comparisons_both_nested matcher cfg self other m0 o0 c1 c2 p q :
  get_members self = Ok m0 → get_members other = Ok o0 →
  get_nested_container self = Ok (Some c1) →
  get_nested_container other = Ok (Some c2) →
  last m0 = Some p → last o0 = Some q →
  comparisons matcher cfg self other = Gen [(p.2, q.2, NO_COMMENT)] None.
Proof.
  intros Hm Ho H1 H2 Hp Hq. unfold comparisons.
  rewrite Hm, Ho, H1, H2. simpl. unfold popitem. by rewrite Hp, Hq.
Qed.

(** On one-member wrappers the branch does what its comment says.  For
    two instances of subclasses of [OneMemberContainer] that list exactly
    one name and both expose a nested container, [comparisons] yields
    exactly one pairing, without comment: the two wrappers' only members,
    whose container facets are the two nested containers.  Nothing else
    is yielded. *)
Theorem comparisons_pairs_only_members matcher cfg
    cls1 names1 member1 src1 cls2 names2 member2 src2 n1 n2 c1 c2 :
  let self := instantiate (OneMemberContainer cls1 names1 member1) src1 in
  let other := instantiate (OneMemberContainer cls2 names2 member2) src2 in
  names1 src1 = Ok [n1] →
  names2 src2 = Ok [n2] →
  get_nested_container self = Ok (Some c1) →
  get_nested_container other = Ok (Some c2) →
  ∃ f1 f2,
    get_member self n1 = Ok f1 ∧ get_member other n2 = Ok f2
    ∧ as_container f1 = Some c1 ∧ as_container f2 = Some c2
    ∧ comparisons matcher cfg self other = Gen [(f1, f2, NO_COMMENT)] None.
Proof.
  intros self other Hn1 Hn2 Hc1 Hc2.
  pose proof Hc1 as Hc1'. pose proof Hc2 as Hc2'.
  unfold self, other, instantiate in Hc1', Hc2'. simpl in Hc1', Hc2'.
  rewrite Hn1 in Hc1'. rewrite Hn2 in Hc2'. simpl in Hc1', Hc2'.
  destruct (member1 src1 n1) as [f1|] eqn:Hf1; [|done].
  destruct (member2 src2 n2) as [f2|] eqn:Hf2; [|done].
  simpl in Hc1', Hc2'. injection Hc1' as Hc1'. injection Hc2' as Hc2'.
  exists f1, f2. split_and!; [done..|].
  apply (comparisons_both_nested _ _ _ _ [(n1, f1)] [(n2, f2)] c1 c2
           (n1, f1) (n2, f2)); try done.
  - unfold get_members, get_all_members, self. simpl.
    rewrite Hn1. simpl. by rewrite Hf1.
  - unfold get_members, get_all_members, other. simpl.
    rewrite Hn2. simpl. by rewrite Hf2.
Qed.

Lemma comparisons_pairs_only_members_witness :
  get_member_names gz_a = Ok ["payload"]
  ∧ get_member_names gz_b = Ok ["payload"]
  ∧ get_nested_container gz_a = Ok (Some tar_a)
  ∧ get_nested_container gz_b = Ok (Some tar_b)
  ∧ ∃ f1 f2,
      get_member gz_a "payload" = Ok f1 ∧ get_member gz_b "payload" = Ok f2
      ∧ as_container f1 = Some tar_a ∧ as_container f2 = Some tar_b
      ∧ comparisons sample_matcher with_added_removed gz_a gz_b
        = Gen [(f1, f2, NO_COMMENT)] None.
Proof.
  split_and!; [reflexivity..|].
  exact (comparisons_pairs_only_members sample_matcher with_added_removed
           "GzipContainer" (λ _, Ok ["payload"])
           (λ _ n, if decide (n = "payload")
                   then Ok (RegularFile "a.tar" (Some tar_a)) else Raise KeyError)
           (plain "a.tar.gz")
           "GzipContainer" (λ _, Ok ["payload"])
           (λ _ n, if decide (n = "payload")
                   then Ok (RegularFile "b.tar" (Some tar_b)) else Raise KeyError)
           (plain "b.tar.gz")
           "payload" "payload" tar_a tar_b eq_refl eq_refl eq_refl eq_refl).
Defined.


(** What [comparisons] yields is a function of what the engine observes of
    its arguments: their members and their nested containers. *)
Lemma comparisons_observes matcher cfg self other self' other' :
  get_members self' = get_members self →
  get_members other' = get_members other →
  get_nested_container self' = get_nested_container self →
  get_nested_container other' = get_nested_container other →
  comparisons matcher cfg self' other' = comparisons matcher cfg self other.
Proof. unfold comparisons. by intros -> -> -> ->. Qed.

(** C3.  [comparisons] is a function of its inputs, so two runs on the same
    input agree pairing for pairing.  The order of that one sequence is
    fixed by the listings: the exact-name pairings follow [self]'s listing
    order; the fuzzy pairings follow the matcher's answer, which for the
    greedy matcher is in descending score with equal scores kept in listing
    order (ours first, then theirs). *)
Theorem comparisons_order
    similarity fuzzy_threshold cfg self other m0 o0 n1 n2 my om :
  let matcher := greedy_fuzzy_matching similarity fuzzy_threshold in
  get_members self = Ok m0 →
  get_members other = Ok o0 →
  get_nested_container self = Ok n1 →
  get_nested_container other = Ok n2 →
  n1 = None ∨ n2 = None →
  unpack n1 m0 = Ok my →
  unpack n2 o0 = Ok om →
  ∃ E F R ms,
    comparisons_trace matcher cfg self other = Gen (E ++ F ++ R) None
    ∧ comparisons matcher cfg self other
      = Gen ((ev_pairing <$> E) ++ (ev_pairing <$> F) ++ (ev_pairing <$> R)) None
    ∧ Forall (λ e, ev_pass e = ExactName) E
    ∧ Forall (λ e, ev_pass e = Fuzzy) F
    ∧ Forall (λ e, ev_pass e = Residual) R
    ∧ names_mine E = filter (.∈ keys om) (keys my)
    ∧ names_theirs E = names_mine E
    ∧ ms = matcher (without (keys om) my) (without (keys my) om)
    ∧ Forall2 reflects F ms
    ∧ StronglySorted by_score ms
    ∧ (∀ s, filter (λ c, cand_score c = s) ms
            `sublist_of` cross_scores similarity
                           (without (keys om) my) (without (keys my) om))
    ∧ (∀ self' other',
         get_members self' = get_members self →
         get_members other' = get_members other →
         get_nested_container self' = get_nested_container self →
         get_nested_container other' = get_nested_container other →
         comparisons matcher cfg self' other' = comparisons matcher cfg self other).
Proof.
  intros matcher Hm Ho H1 H2 Hn Hu1 Hu2.
  pose proof (greedy_fuzzy_matching_contract similarity fuzzy_threshold)
    as Hmatcher. fold matcher in Hmatcher.
  assert (NoDup (keys my)) as Hnd1.
  { eapply unpack_NoDup; [|exact Hu1]. by eapply get_members_NoDup. }
  assert (NoDup (keys om)) as Hnd2.
  { eapply unpack_NoDup; [|exact Hu2]. by eapply get_members_NoDup. }
  destruct (pairing_passes_trace_spec matcher cfg Hmatcher my om Hnd1 Hnd2)
    as (E & F & Htr & Em & Et & Es & Fm & Ft & Fr & Fs).
  set (rm := without (keys om) my) in *.
  set (ro := without (keys my) om) in *.
  set (ms := matcher rm ro) in *.
  set (R := if new_file cfg
            then added_removed_trace (without (cand_mine <$> ms) rm)
                   (without (cand_theirs <$> ms) ro)
            else []) in *.
  assert (comparisons_trace matcher cfg self other = Gen (E ++ F ++ R) None)
    as Hrun.
  { by rewrite (comparisons_trace_passes _ _ _ _ _ _ _ _ _ _
                  Hm Ho H1 H2 Hn Hu1 Hu2). }
  destruct (greedy_fuzzy_matching_order similarity fuzzy_threshold rm ro)
    as (Hsorted & Hties & _).
  exists E, F, R, ms. split_and!; try done.
  - rewrite <-comparisons_trace_erase, Hrun. unfold gen_map. simpl.
    by rewrite !fmap_app.
  - eapply Forall_impl; [exact Es|]. by intros e [? _].
  - eapply Forall_impl; [exact Fs|]. by intros e [? _].
  - unfold R. destruct (new_file cfg); [|done].
    eapply Forall_impl; [apply added_removed_trace_sound|]. by intros e [? _].
  - by rewrite Et, Em.
  - intros self' other'. apply comparisons_observes.
Qed.

Lemma comparisons_order_witness :
  yielded (comparisons_trace (greedy_fuzzy_matching flat_similarity 60)
             without_added_removed tar_a tar_b)
  = [ Event ExactName (Some "a.txt") (Some "a.txt")
        (plain "a/a.txt", plain "b/a.txt", NO_COMMENT);
      Event Fuzzy (Some "b.txt") (Some "c.txt")
        (plain "a/b.txt", plain "b/c.txt", fuzzy_comment 70);
      Event Fuzzy (Some "x") (Some "y")
        (plain "a/x", plain "b/y", fuzzy_comment 70) ]
  ∧ ∃ E F R ms,
      comparisons_trace (greedy_fuzzy_matching flat_similarity 60)
        without_added_removed tar_a tar_b = Gen (E ++ F ++ R) None
      ∧ names_mine E = ["a.txt"]
      ∧ Forall2 reflects F ms
      ∧ StronglySorted by_score ms.
Proof.
  split; [reflexivity|].
  destruct (comparisons_order flat_similarity 60 without_added_removed
              tar_a tar_b _ _ None None _ _
              eq_refl eq_refl eq_refl eq_refl (or_introl eq_refl)
              eq_refl eq_refl)
    as (E & F & R & ms & Hrun & _ & _ & _ & _ & HE & _ & _ & HF & Hs & _).
  exists E, F, R, ms. split_and!; [exact Hrun|exact HE|exact HF|exact Hs].
Defined.

(** C4.  Whatever the matcher answers, the run is an exact-name segment,
    then a fuzzy segment, then a residual segment.  A name in a fuzzy
    pairing is a member name of its side that has no namesake on the other
    side, so it is in no exact-name pairing; no name occurs in two fuzzy
    pairings.  When the run ends normally, which it does for a matcher
    that honours its contract, and [new_file] is set, the residual segment
    consumes, in listing order, precisely the names that neither earlier
    segment consumed. *)
Theorem fuzzy_pass_takes_only_unmatched
    matcher cfg self other m0 o0 n1 n2 my om :
  get_members self = Ok m0 →
  get_members other = Ok o0 →
  get_nested_container self = Ok n1 →
  get_nested_container other = Ok n2 →
  n1 = None ∨ n2 = None →
  unpack n1 m0 = Ok my →
  unpack n2 o0 = Ok om →
  let tr := comparisons_trace matcher cfg self other in
  ∃ E F R,
    yielded tr = E ++ F ++ R
    ∧ gen_map ev_pairing tr = comparisons matcher cfg self other
    ∧ Forall (λ e, ev_pass e = ExactName) E
    ∧ Forall (λ e, ev_pass e = Fuzzy) F
    ∧ Forall (λ e, ev_pass e = Residual) R
    ∧ (∀ n, n ∈ names_mine F →
         n ∈ keys my ∧ (n ∉ keys om) ∧ (n ∉ names_mine E))
    ∧ (∀ n, n ∈ names_theirs F →
         n ∈ keys om ∧ (n ∉ keys my) ∧ (n ∉ names_theirs E))
    ∧ NoDup (names_mine F)
    ∧ NoDup (names_theirs F)
    ∧ (raised tr = None →
       names_mine R
       = (if new_file cfg
          then filter (λ n, (n ∉ names_mine E) ∧ (n ∉ names_mine F)) (keys my)
          else [])
       ∧ names_theirs R
         = (if new_file cfg
            then filter (λ n, (n ∉ names_theirs E) ∧ (n ∉ names_theirs F))
                   (keys om)
            else []))
    ∧ (matcher_contract matcher → raised tr = None).
Proof.
  intros Hm Ho H1 H2 Hn Hu1 Hu2 tr.
  assert (NoDup (keys my)) as Hnd1.
  { eapply unpack_NoDup; [|exact Hu1]. by eapply get_members_NoDup. }
  assert (NoDup (keys om)) as Hnd2.
  { eapply unpack_NoDup; [|exact Hu2]. by eapply get_members_NoDup. }
  destruct (exact_name_trace_spec my [] om) as (E & HE & Em & Et & Es);
    [done..|intros k _; apply not_elem_of_nil|]. simpl in HE.
  set (rm := without (keys om) my) in *.
  set (ro := without (keys my) om) in *.
  assert (NoDup (keys rm)) as Hrm by by apply NoDup_keys_without.
  assert (NoDup (keys ro)) as Hro by by apply NoDup_keys_without.
  destruct (fuzzy_trace_any (matcher rm ro) rm ro Hrm Hro)
    as (F & st & HF & Fs & Fn1 & Fn2 & Fs1 & Fs2 & Hst).
  assert (tr = match st with
               | Raise e => Gen (E ++ F) (Some e)
               | Ok (my', other') =>
                   Gen (E ++ F ++ (if new_file cfg
                                   then added_removed_trace my' other'
                                   else [])) None
               end) as Htr.
  { unfold tr.
    rewrite (comparisons_trace_passes _ _ _ _ _ _ _ _ _ _
               Hm Ho H1 H2 Hn Hu1 Hu2).
    unfold pairing_passes_trace. rewrite HE. fold rm ro. by rewrite HF. }
  assert (∀ n, n ∈ names_mine F →
            n ∈ keys my ∧ (n ∉ keys om) ∧ (n ∉ names_mine E)) as HFm.
  { intros n Hin%Fs1. unfold rm in Hin.
    rewrite keys_without, list_elem_of_filter in Hin.
    rewrite Em, list_elem_of_filter. tauto. }
  assert (∀ n, n ∈ names_theirs F →
            n ∈ keys om ∧ (n ∉ keys my) ∧ (n ∉ names_theirs E)) as HFt.
  { intros n Hin%Fs2. unfold ro in Hin.
    rewrite keys_without, list_elem_of_filter in Hin.
    rewrite Et, list_elem_of_filter. tauto. }
  assert (Forall (λ e, ev_pass e = ExactName) E) as HEp.
  { eapply Forall_impl; [exact Es|]. by intros e [? _]. }
  assert (Forall (λ e, ev_pass e = Fuzzy) F) as HFp.
  { eapply Forall_impl; [exact Fs|]. by intros e [? _]. }
  destruct st as [[my' other']|e].
  - destruct Hst as [-> ->].
    eexists E, F, _. rewrite Htr. simpl.
    split_and!; [reflexivity|rewrite <-Htr; apply comparisons_trace_erase
                |done| | |done..| |done].
    + done.
    + destruct (new_file cfg); [|done].
      eapply Forall_impl; [apply added_removed_trace_sound|]. by intros e [? _].
    + intros _. destruct (new_file cfg); [|done].
      rewrite added_removed_trace_names_mine, added_removed_trace_names_theirs.
      rewrite !keys_without. unfold rm, ro.
      rewrite !keys_without, !list_filter_filter, Em, Et. split.
      * apply filter_ext_in. intros n Hn'. rewrite list_elem_of_filter. tauto.
      * apply filter_ext_in. intros n Hn'. rewrite list_elem_of_filter. tauto.
  - exists E, F, []. rewrite Htr. simpl.
    split_and!; [by rewrite app_nil_r
                |rewrite <-Htr; apply comparisons_trace_erase
                |done..| |].
    + done.
    + intros Hmatcher. exfalso.
      destruct (fuzzy_trace_spec (matcher rm ro) rm ro Hrm Hro)
        as (F' & HF' & _); [by apply Hmatcher|].
      rewrite HF in HF'. discriminate HF'.
Qed.

Lemma fuzzy_pass_takes_only_unmatched_witness :
  yielded (comparisons_trace sample_matcher with_added_removed tar_a tar_b)
  = [ Event ExactName (Some "a.txt") (Some "a.txt")
        (plain "a/a.txt", plain "b/a.txt", NO_COMMENT);
      Event Fuzzy (Some "b.txt") (Some "c.txt")
        (plain "a/b.txt", plain "b/c.txt", fuzzy_comment 90);
      Event Residual (Some "x") None
        (plain "a/x", MissingFile dev_null (Some (plain "a/x")), NO_COMMENT);
      Event Residual None (Some "y")
        (MissingFile dev_null (Some (plain "b/y")), plain "b/y", NO_COMMENT) ]
  ∧ ∃ E F R,
      yielded (comparisons_trace sample_matcher with_added_removed tar_a tar_b)
      = E ++ F ++ R
      ∧ NoDup (names_mine F)
      ∧ ∀ n, n ∈ names_mine F → n ∉ names_mine E.
Proof.
  split; [reflexivity|].
  destruct (fuzzy_pass_takes_only_unmatched sample_matcher with_added_removed
              tar_a tar_b _ _ None None _ _
              eq_refl eq_refl eq_refl eq_refl (or_introl eq_refl)
              eq_refl eq_refl)
    as (E & F & R & Hrun & _ & _ & _ & _ & Hm & _ & Hnd & _).
  exists E, F, R. split_and!; [exact Hrun|exact Hnd|].
  intros n Hn. by apply Hm.
Defined.

(** A matcher that breaks its contract does not get a member paired twice:
    the second [pop] of the same name raises [KeyError], after the pairings
    made so far, and the residual pass is never reached. *)
Example repeating_matcher_raises :
  comparisons repeating_matcher with_added_removed tar_a tar_b
  = Gen [ (plain "a/a.txt", plain "b/a.txt", NO_COMMENT);
          (plain "a/b.txt", plain "b/c.txt", fuzzy_comment 80) ]
      (Some KeyError).
Proof. reflexivity. Qed.

(** C5.  When exactly one side exposes a nested container, the three
    passes run on the members of that nested container in place of the
    side's own, and on the other side's members unchanged.  If the nested
    container does not nest further, comparing the wrapper is comparing
    its payload. *)
Theorem comparisons_unpacks_the_nested_side matcher cfg self other m0 o0 c :
  get_members self = Ok m0 →
  get_members other = Ok o0 →
  (get_nested_container self = Ok (Some c) →
   get_nested_container other = Ok None →
   comparisons matcher cfg self other
   = gen_try (get_members c) (λ my_members,
       pairing_passes matcher cfg my_members o0)
   ∧ (get_nested_container c = Ok None →
      comparisons matcher cfg self other = comparisons matcher cfg c other))
  ∧ (get_nested_container self = Ok None →
     get_nested_container other = Ok (Some c) →
     comparisons matcher cfg self other
     = gen_try (get_members c) (λ other_members,
         pairing_passes matcher cfg m0 other_members)
     ∧ (get_nested_container c = Ok None →
        comparisons matcher cfg self other = comparisons matcher cfg self c)).
Proof.
  intros Hm Ho. split; intros H1 H2.
  - assert (comparisons matcher cfg self other
            = gen_try (get_members c) (λ my_members,
                pairing_passes matcher cfg my_members o0)) as Heq.
    { unfold comparisons. rewrite Hm, Ho, H1, H2. simpl.
      by destruct (get_members c). }
    split; [done|]. intros Hc. rewrite Heq. unfold comparisons.
    rewrite Ho, Hc, H2. by destruct (get_members c).
  - assert (comparisons matcher cfg self other
            = gen_try (get_members c) (λ other_members,
                pairing_passes matcher cfg m0 other_members)) as Heq.
    { unfold comparisons. rewrite Hm, Ho, H1, H2. simpl.
      by destruct (get_members c). }
    split; [done|]. intros Hc. rewrite Heq. unfold comparisons.
    rewrite Hm, Hc, H1. by destruct (get_members c).
Qed.

Lemma comparisons_unpacks_the_nested_side_witness :
  get_nested_container gz_a = Ok (Some tar_a)
  ∧ get_nested_container tar_b = Ok None
  ∧ get_nested_container tar_a = Ok None
  ∧ comparisons sample_matcher with_added_removed gz_a tar_b
    = comparisons sample_matcher with_added_removed tar_a tar_b
  ∧ comparisons sample_matcher with_added_removed tar_b gz_a
    = comparisons sample_matcher with_added_removed tar_b tar_a.
Proof.
  split_and!; [reflexivity..| |].
  - refine (proj2 (proj1 (comparisons_unpacks_the_nested_side
              sample_matcher with_added_removed gz_a tar_b _ _ tar_a
              eq_refl eq_refl) eq_refl eq_refl) eq_refl).
  - refine (proj2 (proj2 (comparisons_unpacks_the_nested_side
              sample_matcher with_added_removed tar_b gz_a _ _ tar_a
              eq_refl eq_refl) eq_refl eq_refl) eq_refl).
Defined.

(** ** What is left for the residual pass *)

Lemma without_app {V} ks1 ks2 (d : OrderedDict V) :
  without (ks1 ++ ks2) d = without ks2 (without ks1 d).
Proof.
  unfold without. rewrite list_filter_filter. apply list_filter_iff.
  intros p. rewrite not_elem_of_app. tauto.
Qed.

Lemma without_matched {V W} (d : OrderedDict V) (d' : OrderedDict W) :
  without (filter (.∈ keys d') (keys d)) d = without (keys d') d.
Proof.
  apply filter_ext_in. intros [k v] Hin. simpl.
  rewrite list_elem_of_filter. pose proof (elem_of_keys _ _ _ Hin). tauto.
Qed.

Lemma without_matched_other {V W} (d : OrderedDict V) (d' : OrderedDict W) :
  without (filter (.∈ keys d) (keys d')) d = without (keys d') d.
Proof.
  apply filter_ext_in. intros [k v] Hin. simpl.
  rewrite list_elem_of_filter. pose proof (elem_of_keys _ _ _ Hin). tauto.
Qed.

Lemma event_sound_named my other e :
  ev_pass e ≠ Residual → event_sound my other e →
  is_Some (ev_mine e) ∧ is_Some (ev_theirs e).
Proof.
  destruct e as [p a b [[m t] c]]. unfold event_sound. simpl.
  destruct p, a, b; try done; by intros _ _; split; eexists.
Qed.

(** C6.  The residual pass runs exactly when [new_file] is set.  The
    pairings of the exact-name and fuzzy passes come first; under the flag
    they are followed by one pairing per member of [self] they left,
    facing a [MissingFile] that stands in for theirs, and then one per
    member of [other] they left, facing a [MissingFile] that stands in
    for ours.  Without the flag nothing follows: those members are in no
    pairing. *)
Theorem residual_pass_only_under_new_file
    matcher cfg self other m0 o0 n1 n2 my om :
  matcher_contract matcher →
  get_members self = Ok m0 →
  get_members other = Ok o0 →
  get_nested_container self = Ok n1 →
  get_nested_container other = Ok n2 →
  n1 = None ∨ n2 = None →
  unpack n1 m0 = Ok my →
  unpack n2 o0 = Ok om →
  ∃ P,
    Forall (λ e, ev_pass e ≠ Residual
                 ∧ is_Some (ev_mine e) ∧ is_Some (ev_theirs e)) P
    ∧ let rest_my := without (names_mine P) my in
      let rest_other := without (names_theirs P) om in
      comparisons_trace matcher cfg self other
      = Gen (P ++ if new_file cfg
                  then added_removed_trace rest_my rest_other else [])
          None
      ∧ comparisons matcher cfg self other
        = Gen ((ev_pairing <$> P) ++
               if new_file cfg
               then ((λ my_member,
                        (my_member, MissingFile dev_null (Some my_member),
                         NO_COMMENT)) <$> values rest_my)
                    ++ ((λ other_member,
                           (MissingFile dev_null (Some other_member),
                            other_member, NO_COMMENT)) <$> values rest_other)
               else [])
            None.
Proof.
  intros Hmatcher Hm Ho H1 H2 Hn Hu1 Hu2.
  assert (NoDup (keys my)) as Hnd1.
  { eapply unpack_NoDup; [|exact Hu1]. by eapply get_members_NoDup. }
  assert (NoDup (keys om)) as Hnd2.
  { eapply unpack_NoDup; [|exact Hu2]. by eapply get_members_NoDup. }
  destruct (pairing_passes_trace_spec matcher cfg Hmatcher my om Hnd1 Hnd2)
    as (E & F & Htr & Em & Et & Es & Fm & Ft & Fr & Fs).
  exists (E ++ F). split.
  { apply Forall_app. split; (eapply Forall_impl; [eassumption|]);
      intros e [Hp He]; simpl.
    - split; [by rewrite Hp|]. eapply event_sound_named; [|done]. by rewrite Hp.
    - split; [by rewrite Hp|]. eapply event_sound_named; [|done]. by rewrite Hp. }
  intros rest_my rest_other.
  assert (rest_my = without (cand_mine <$> matcher (without (keys om) my)
                               (without (keys my) om)) (without (keys om) my))
    as Hrest_my.
  { unfold rest_my. by rewrite names_mine_app, without_app, Em, Fm, without_matched. }
  assert (rest_other = without (cand_theirs <$> matcher (without (keys om) my)
                               (without (keys my) om)) (without (keys my) om))
    as Hrest_other.
  { unfold rest_other.
    by rewrite names_theirs_app, without_app, Et, Ft, without_matched_other. }
  rewrite <-Hrest_my, <-Hrest_other in Htr.
  assert (comparisons_trace matcher cfg self other
          = Gen (((E ++ F)) ++
                 (if new_file cfg
                  then added_removed_trace rest_my rest_other else [])) None)
    as Hrun.
  { rewrite (comparisons_trace_passes _ _ _ _ _ _ _ _ _ _ Hm Ho H1 H2 Hn Hu1 Hu2).
    by rewrite Htr, <-app_assoc. }
  split; [done|].
  rewrite <-comparisons_trace_erase, Hrun. unfold gen_map. simpl.
  rewrite fmap_app. destruct (new_file cfg); [|done].
  by rewrite added_removed_trace_erase.
Qed.

Lemma residual_pass_only_under_new_file_witness :
  matcher_contract sample_matcher
  ∧ comparisons sample_matcher with_added_removed tar_a tar_b
    = Gen [ (plain "a/a.txt", plain "b/a.txt", NO_COMMENT);
            (plain "a/b.txt", plain "b/c.txt", fuzzy_comment 90);
            (plain "a/x", MissingFile dev_null (Some (plain "a/x")), NO_COMMENT);
            (MissingFile dev_null (Some (plain "b/y")), plain "b/y", NO_COMMENT) ]
        None
  ∧ comparisons sample_matcher without_added_removed tar_a tar_b
    = Gen [ (plain "a/a.txt", plain "b/a.txt", NO_COMMENT);
            (plain "a/b.txt", plain "b/c.txt", fuzzy_comment 90) ]
        None
  ∧ ∃ P, comparisons_trace sample_matcher without_added_removed tar_a tar_b
         = Gen (P ++ []) None.
Proof.
  pose proof (greedy_fuzzy_matching_contract sample_similarity 60) as Hc.
  split_and!; [exact Hc|reflexivity..|].
  destruct (residual_pass_only_under_new_file sample_matcher
              without_added_removed tar_a tar_b _ _ None None _ _
              Hc eq_refl eq_refl eq_refl eq_refl (or_introl eq_refl)
              eq_refl eq_refl) as (P & _ & HP & _).
  exists P. exact HP.
Defined.

(** C7.  A [MissingContainer] whose source stands in for a file with a
    container facet lists the member names of that facet; and whatever its
    source, [get_member] answers every name with a [MissingFile] and never
    raises. *)
Theorem missing_container_mirrors_counterpart source counterpart c :
  other_file source = Ok (Some counterpart) →
  as_container counterpart = Some c →
  let mc := instantiate MissingContainer source in
  get_member_names mc = get_member_names c
  ∧ ∀ member_name,
      get_member mc member_name = Ok (MissingFile dev_null None)
      ∧ is_missing (MissingFile dev_null None) = true.
Proof.
  intros Ho Hc mc. split; [|done].
  unfold mc, instantiate, get_member_names. simpl. rewrite Ho. simpl.
  rewrite Hc. simpl. by destruct c.
Qed.

Lemma missing_container_mirrors_counterpart_witness :
  other_file removed_tar = Ok (Some (RegularFile "a.tar" (Some tar_a)))
  ∧ as_container (RegularFile "a.tar" (Some tar_a)) = Some tar_a
  ∧ get_member_names (instantiate MissingContainer removed_tar)
    = Ok ["a.txt"; "b.txt"; "x"]
  ∧ get_member_names (instantiate MissingContainer removed_tar)
    = get_member_names tar_a
  ∧ get_member (instantiate MissingContainer removed_tar) "no such member"
    = Ok (MissingFile dev_null None).
Proof.
  split_and!; [reflexivity..| |].
  - exact (proj1 (missing_container_mirrors_counterpart removed_tar
                    (RegularFile "a.tar" (Some tar_a)) tar_a eq_refl eq_refl)).
  - exact (proj1 (proj2 (missing_container_mirrors_counterpart removed_tar
                    (RegularFile "a.tar" (Some tar_a)) tar_a eq_refl eq_refl)
                    "no such member")).
Defined.

(** The facet modelled for a [MissingFile] is the [MissingContainer] that
    [Container.__new__] builds on it. *)
Lemma as_container_MissingFile cls path counterpart c :
  as_container counterpart = Some c →
  as_container (MissingFile path (Some counterpart))
  = Some (Container_new cls (MissingFile path (Some counterpart))).
Proof.
  intros Hc. simpl. rewrite Hc. unfold Container_new, instantiate. simpl.
  by rewrite Hc.
Qed.

(** C8.  Constructing a container of any class on a [MissingFile] yields
    the [MissingContainer] instance on that source, whatever class was
    requested; on any other source it yields the instance of the requested
    class, with that source stored. *)
Theorem container_new_redirects_missing :
  (∀ cls path counterpart,
     let file := MissingFile path counterpart in
     Container_new cls file = instantiate MissingContainer file
     ∧ class_name (Container_new cls file) = "MissingContainer"
     ∧ source (Container_new cls file) = file
     ∧ ∀ member_name,
         get_member (Container_new cls file) member_name
         = Ok (MissingFile dev_null None))
  ∧ (∀ cls name facet,
       let file := RegularFile name facet in
       Container_new cls file = instantiate cls file
       ∧ class_name (Container_new cls file) = cls_name cls
       ∧ source (Container_new cls file) = file
       ∧ get_member_names (Container_new cls file)
         = cls_get_member_names cls file
       ∧ get_member (Container_new cls file) = cls_get_member cls file
       ∧ get_nested_container (Container_new cls file)
         = cls_get_nested_container cls file).
Proof. split; intros; by split_and!. Qed.

(** ** lookup_file *)

Lemma reaches_cons self names file :
  reaches self names file → ∃ name names', names = name :: names'.
Proof. destruct 1; eauto. Qed.

Lemma lookup_file_never_KeyError self names :
  lookup_file self names ≠ Raise KeyError.
Proof.
  revert self. induction names as [|name remainings IH]; intros self; simpl.
  { done. }
  destruct (get_member self name) as [file|[]]; try done.
  destruct remainings as [|r remainings]; [done|].
  destruct (as_container file) as [container|]; [apply IH|done].
Qed.

Lemma lookup_file_reaches self names file :
  reaches self names file → lookup_file self names = Ok (Some file).
Proof.
  induction 1 as [self name file Hf
                 |self name file container names file' Hf Hc Hr IH]; simpl.
  - by rewrite Hf.
  - rewrite Hf. destruct (reaches_cons _ _ _ Hr) as (n & ns & ->).
    by rewrite Hc.
Qed.

Lemma lookup_file_not_a_container self names file name remainings :
  reaches self names file → as_container file = None →
  lookup_file self (names ++ name :: remainings) = Ok None.
Proof.
  intros Hr Hnone.
  induction Hr as [self n file Hf
                  |self n file0 container names file' Hf Hc Hr IH]; simpl.
  - by rewrite Hf, Hnone.
  - rewrite Hf. destruct (reaches_cons _ _ _ Hr) as (n' & ns & ->).
    simpl. rewrite Hc. by apply IH.
Qed.

Lemma lookup_file_absent_below self names file container name remainings :
  reaches self names file → as_container file = Some container →
  get_member container name = Raise KeyError →
  lookup_file self (names ++ name :: remainings) = Ok None.
Proof.
  intros Hr Hsome Habsent.
  induction Hr as [self n file Hf
                  |self n file0 container0 names file' Hf Hc Hr IH]; simpl.
  - rewrite Hf, Hsome. simpl. by rewrite Habsent.
  - rewrite Hf. destruct (reaches_cons _ _ _ Hr) as (n' & ns & ->).
    simpl. rewrite Hc. by apply IH.
Qed.

(** C9.  [lookup_file] answers [None] when the first name is absent, that
    is when [get_member] raises [KeyError] for it; no [KeyError] ever
    escapes [lookup_file], at whatever depth the name is missing; and it
    answers [None] as well when names remain but the member reached so far
    is not a container. *)
Theorem lookup_file_member_not_found :
  (∀ self name remainings,
     get_member self name = Raise KeyError →
     lookup_file self (name :: remainings) = Ok None)
  ∧ (∀ self names, lookup_file self names ≠ Raise KeyError)
  ∧ (∀ self names file container name remainings,
       reaches self names file → as_container file = Some container →
       get_member container name = Raise KeyError →
       lookup_file self (names ++ name :: remainings) = Ok None)
  ∧ (∀ self names file name remainings,
       reaches self names file → as_container file = None →
       lookup_file self (names ++ name :: remainings) = Ok None).
Proof.
  split_and!.
  - intros self name remainings Habsent. simpl. by rewrite Habsent.
  - apply lookup_file_never_KeyError.
  - apply lookup_file_absent_below.
  - apply lookup_file_not_a_container.
Qed.

Lemma lookup_file_member_not_found_witness :
  get_member gz_a "nope" = Raise KeyError
  ∧ lookup_file gz_a ["nope"; "a.txt"] = Ok None
  ∧ lookup_file gz_a ["payload"; "a.txt"] = Ok (Some (plain "a/a.txt"))
  ∧ lookup_file gz_a ["payload"; "nope"] = Ok None
  ∧ reaches gz_a ["payload"; "a.txt"] (plain "a/a.txt")
  ∧ as_container (plain "a/a.txt") = None
  ∧ lookup_file gz_a (["payload"; "a.txt"] ++ ["deeper"]) = Ok None.
Proof.
  assert (reaches gz_a ["payload"; "a.txt"] (plain "a/a.txt")) as Hr.
  { eapply reaches_nested; [reflexivity..|]. by apply reaches_member. }
  destruct lookup_file_member_not_found as (Habsent & _ & Hbelow & Hleaf).
  split_and!; [reflexivity| |reflexivity| |exact Hr|reflexivity|].
  - exact (Habsent gz_a "nope" ["a.txt"] eq_refl).
  - refine (Hbelow gz_a ["payload"] (RegularFile "a.tar" (Some tar_a)) tar_a
              "nope" [] _ eq_refl eq_refl).
    by apply reaches_member.
  - exact (Hleaf gz_a _ _ "deeper" [] Hr eq_refl).
Defined.

(** ** ArContainer *)

Lemma known_ignores_keys k : k ∈ keys known_ignores ↔ k = "/" ∨ k = "//".
Proof.
  unfold known_ignores, keys. simpl.
  rewrite !elem_of_cons. split; [|tauto].
  intros [?|[?|?%elem_of_nil]]; tauto.
Qed.

(** C10.  [ArContainer.get_adjusted_members] returns the parent's members
    in their order, without those named ["/"] or ["//"], and drops nothing
    else: the result is a sublist of the parent's list, it holds exactly
    the members with another name, and what is missing in length is the
    number of members with one of the two names. *)
Theorem ar_adjusted_members_drops_only_tables {M : Type}
    (members : list (string * M)) :
  let adjusted := ArContainer_get_adjusted_members members in
  adjusted `sublist_of` members
  ∧ (∀ p, p ∈ adjusted ↔ p ∈ members ∧ p.1 ≠ "/" ∧ p.1 ≠ "//")
  ∧ length adjusted
    + length (filter (λ p, p.1 = "/" ∨ p.1 = "//") members)
    = length members
  ∧ (∀ before p after,
       members = before ++ p :: after → p.1 ≠ "/" → p.1 ≠ "//" →
       adjusted = ArContainer_get_adjusted_members before
                  ++ p :: ArContainer_get_adjusted_members after).
Proof.
  intros adjusted. unfold adjusted, ArContainer_get_adjusted_members.
  clear adjusted.
  split_and!.
  - apply sublist_filter.
  - intros p. rewrite list_elem_of_filter, known_ignores_keys. tauto.
  - induction members as [|p members IH]; [done|].
    rewrite !filter_cons. pose proof (known_ignores_keys p.1) as Hk.
    destruct (decide (p.1 ∉ keys known_ignores)) as [Hin|Hin];
      destruct (decide (p.1 = "/" ∨ p.1 = "//")) as [Hp|Hp]; cbn [length].
    + tauto.
    + lia.
    + lia.
    + exfalso. apply Hin. tauto.
  - intros before p after -> H1 H2.
    rewrite filter_app, filter_cons_True; [done|].
    rewrite known_ignores_keys. tauto.
Qed.

Lemma ar_adjusted_members_drops_only_tables_witness :
  ArContainer_get_adjusted_members
    [("/", 1); ("//", 2); ("b.o", 3); ("a.o", 4); ("/", 5); ("b.o", 6)]
  = [("b.o", 3); ("a.o", 4); ("b.o", 6)]
  ∧ ArContainer_get_adjusted_members
      ([("/", 1); ("//", 2)] ++ ("b.o", 3) :: [("a.o", 4); ("/", 5); ("b.o", 6)])
    = ArContainer_get_adjusted_members [("/", 1); ("//", 2)]
      ++ ("b.o", 3)
         :: ArContainer_get_adjusted_members [("a.o", 4); ("/", 5); ("b.o", 6)].
Proof.
  split; [reflexivity|].
  refine (proj2 (proj2 (proj2 (ar_adjusted_members_drops_only_tables
            ([("/", 1); ("//", 2)] ++ ("b.o", 3) :: [("a.o", 4); ("/", 5); ("b.o", 6)]))))
            [("/", 1); ("//", 2)] ("b.o", 3) [("a.o", 4); ("/", 5); ("b.o", 6)]
            eq_refl _ _); discriminate.
Defined.

(** * Beyond the specification: more of what the code does *)

(** ** get_members *)

Lemma remove_dups_NoDup {A} `{EqDecision A} (l : list A) :
  NoDup l → remove_dups l = l.
Proof.
  induction 1 as [|x l Hx _ IH]; [done|]. simpl.
  destruct (decide_rel elem_of x l); [done|]. by rewrite IH.
Qed.

Lemma keys_of_pairs {V} (l : list (string * V)) :
  keys (of_pairs l) = reverse (remove_dups (reverse l.*1)).
Proof.
  induction l as [|p l IH] using rev_ind; [done|].
  rewrite of_pairs_snoc, keys_setitem, IH, fmap_app.
  change ([p].*1) with [p.1]. rewrite reverse_snoc. simpl.
  destruct (decide_rel elem_of p.1 (reverse l.*1)) as [Hin|Hin];
    case_decide as Hin'.
  - done.
  - exfalso. apply Hin'. by rewrite elem_of_reverse, elem_of_remove_dups.
  - exfalso. apply Hin. by rewrite elem_of_reverse, elem_of_remove_dups in Hin'.
  - by rewrite reverse_cons.
Qed.

Lemma elem_of_setitem {V} (d : OrderedDict V) k v p :
  p ∈ setitem d k v → p = (k, v) ∨ p ∈ d.
Proof.
  induction d as [|[k' v'] d IH]; simpl.
  { intros ->%list_elem_of_singleton. by left. }
  case_decide; intros [->|Hin]%elem_of_cons.
  - by left.
  - right. apply elem_of_cons. by right.
  - right. apply elem_of_cons. by left.
  - destruct (IH Hin) as [->|?]; [by left|]. right. apply elem_of_cons. by right.
Qed.

Lemma elem_of_of_pairs {V} (l : list (string * V)) p : p ∈ of_pairs l → p ∈ l.
Proof.
  induction l as [|q l IH] using rev_ind; [done|].
  rewrite of_pairs_snoc, elem_of_app, list_elem_of_singleton.
  intros [->|Hin]%elem_of_setitem; [right; by destruct q|left; by apply IH].
Qed.

Lemma get_members_keys self names d :
  get_member_names self = Ok names →
  get_members self = Ok d →
  keys d = reverse (remove_dups (reverse names)).
Proof.
  intros Hn Hd. unfold get_members, get_all_members in Hd.
  rewrite Hn in Hd. simpl in Hd.
  destruct (fetch_all (get_member self) names) as [l|] eqn:Hl; [|done].
  injection Hd as <-. by rewrite keys_of_pairs, (fetch_all_names _ _ _ Hl).
Qed.

(** X1.  [get_members] lists each name once, at the place of its first
    occurrence in [get_member_names]; every entry is what [get_member]
    answers for its name; a listing without repetition is kept as it
    is. *)
Theorem get_members_listing self names d :
  get_member_names self = Ok names →
  get_members self = Ok d →
  keys d = reverse (remove_dups (reverse names))
  ∧ NoDup (keys d)
  ∧ (∀ k f, (k, f) ∈ d → k ∈ names ∧ get_member self k = Ok f)
  ∧ (NoDup names → keys d = names).
Proof.
  intros Hn Hd. pose proof (get_members_NoDup _ _ Hd) as Hnd.
  unfold get_members, get_all_members in Hd. rewrite Hn in Hd. simpl in Hd.
  destruct (fetch_all (get_member self) names) as [l|] eqn:Hl; [|done].
  injection Hd as <-. pose proof (fetch_all_names _ _ _ Hl) as Hk.
  split_and!; [by rewrite keys_of_pairs, Hk|done| |].
  - intros k f Hin%elem_of_of_pairs. split.
    + rewrite <-Hk. by eapply elem_of_keys.
    + by eapply fetch_all_members.
  - intros Hnames. rewrite keys_of_pairs, Hk.
    rewrite remove_dups_NoDup; [apply reverse_involutive|].
    by rewrite reverse_Permutation.
Qed.

Lemma get_members_listing_witness :
  get_member_names tar_repeating = Ok ["b"; "a"; "b"; "c"; "a"]
  ∧ keys [("b", plain "r/b"); ("a", plain "r/a"); ("c", plain "r/c")]
    = reverse (remove_dups (reverse ["b"; "a"; "b"; "c"; "a"]))
  ∧ get_member_names tar_a = Ok ["a.txt"; "b.txt"; "x"]
  ∧ keys [("a.txt", plain "a/a.txt"); ("b.txt", plain "a/b.txt");
          ("x", plain "a/x")] = ["a.txt"; "b.txt"; "x"].
Proof.
  split_and!; [reflexivity| |reflexivity|].
  - exact (proj1 (get_members_listing tar_repeating _ _ eq_refl eq_refl)).
  - refine (proj2 (proj2 (proj2
              (get_members_listing tar_a _ _ eq_refl eq_refl))) _).
    apply (bool_decide_unpack _). by vm_compute.
Defined.

Lemma fetch_all_Raise member before n after e :
  Forall (λ k, ∃ f, member k = Ok f) before →
  member n = Raise e →
  fetch_all member (before ++ n :: after) = Raise e.
Proof.
  intros Hb Hn. induction Hb as [|k before [f Hf] _ IH]; simpl.
  - by rewrite Hn.
  - by rewrite Hf, IH.
Qed.

Lemma fetch_all_Ok member names :
  Forall (λ k, ∃ f, member k = Ok f) names → ∃ l, fetch_all member names = Ok l.
Proof.
  induction 1 as [|k names [f Hf] _ [l IH]]; simpl; [by eexists|].
  rewrite Hf, IH. by eexists.
Qed.

(** X2.  A listed member that cannot be fetched makes [get_members] raise
    what the first failing [get_member] raised, and a comparison with
    such a container on either side raises the same before it yields
    anything; when every listed member can be fetched, [get_members]
    returns. *)
Theorem get_members_first_failure matcher cfg self before n after e :
  get_member_names self = Ok (before ++ n :: after) →
  Forall (λ k, ∃ f, get_member self k = Ok f) before →
  get_member self n = Raise e →
  get_members self = Raise e
  ∧ (∀ other, comparisons matcher cfg self other = Gen [] (Some e))
  ∧ (∀ other o, get_members other = Ok o →
       comparisons matcher cfg other self = Gen [] (Some e)).
Proof.
  intros Hn Hb He.
  assert (get_members self = Raise e) as Hm.
  { unfold get_members, get_all_members. rewrite Hn. simpl.
    by rewrite (fetch_all_Raise _ _ _ _ _ Hb He). }
  split_and!; [done| |].
  - intros other. unfold comparisons. by rewrite Hm.
  - intros other o Ho. unfold comparisons. by rewrite Ho, Hm.
Qed.

Lemma get_members_first_failure_witness :
  get_member_names tar_broken = Ok (["a.txt"] ++ "gone" :: ["x"])
  ∧ get_member tar_broken "gone" = Raise AttributeError
  ∧ get_members tar_broken = Raise AttributeError
  ∧ comparisons sample_matcher with_added_removed tar_a tar_broken
    = Gen [] (Some AttributeError).
Proof.
  destruct (get_members_first_failure sample_matcher with_added_removed
              tar_broken ["a.txt"] "gone" ["x"] AttributeError eq_refl)
    as (Hm & _ & Hc); [|reflexivity|].
  { apply Forall_cons. split; [by eexists|apply Forall_nil_2]. }
  split_and!; [reflexivity|reflexivity|exact Hm|].
  exact (Hc tar_a _ eq_refl).
Defined.

(** [get_members] returns exactly when the listing does and every listed
    member can be fetched. *)
Lemma get_members_Ok self names :
  get_member_names self = Ok names →
  (∃ d, get_members self = Ok d)
  ↔ Forall (λ k, ∃ f, get_member self k = Ok f) names.
Proof.
  intros Hn. unfold get_members, get_all_members. rewrite Hn. simpl. split.
  - intros [d Hd]. destruct (fetch_all _ names) as [l|] eqn:Hl; [|done].
    apply Forall_forall. intros k Hk. rewrite <-(fetch_all_names _ _ _ Hl) in Hk.
    apply list_elem_of_fmap in Hk as ([k' f] & -> & Hin).
    exists f. by eapply fetch_all_members.
  - intros [l Hl]%fetch_all_Ok. rewrite Hl. by eexists.
Qed.

(** ** lookup_file, continued *)

(** X3.  [lookup_file] returns a file exactly when the names lead to it:
    every name is fetched in turn and every member before the last is a
    container. *)
Theorem lookup_file_finds_iff_reaches self names file :
  lookup_file self names = Ok (Some file) ↔ reaches self names file.
Proof.
  split; [|apply lookup_file_reaches].
  revert self. induction names as [|name remainings IH]; intros self; simpl.
  { done. }
  destruct (get_member self name) as [f|[]] eqn:Hf; try done.
  destruct remainings as [|r remainings].
  - intros [= ->]. by apply reaches_member.
  - destruct (as_container f) as [c|] eqn:Hc; [|done].
    intros Hl. eapply reaches_nested; [done..|]. by apply IH.
Qed.

(** X4.  Digging composes: once a prefix of the names leads to a member
    that is a container, the lookup continues in that container with the
    names that remain. *)
Theorem lookup_file_app self prefix file container remainings :
  reaches self prefix file →
  as_container file = Some container →
  remainings ≠ [] →
  lookup_file self (prefix ++ remainings) = lookup_file container remainings.
Proof.
  intros Hr Hc Hne. destruct remainings as [|r remainings]; [done|]. clear Hne.
  induction Hr as [self n file Hf
                  |self n file0 container0 names file' Hf Hc0 Hr IH]; simpl.
  - by rewrite Hf, Hc.
  - rewrite Hf. destruct (reaches_cons _ _ _ Hr) as (n' & ns & ->).
    simpl. rewrite Hc0. by apply IH.
Qed.

Lemma lookup_file_app_witness :
  reaches gz_a ["payload"] (RegularFile "a.tar" (Some tar_a))
  ∧ lookup_file gz_a (["payload"] ++ ["b.txt"]) = lookup_file tar_a ["b.txt"]
  ∧ lookup_file tar_a ["b.txt"] = Ok (Some (plain "a/b.txt")).
Proof.
  assert (reaches gz_a ["payload"] (RegularFile "a.tar" (Some tar_a))) as Hr
    by by apply reaches_member.
  split_and!; [exact Hr| |reflexivity].
  by refine (lookup_file_app gz_a ["payload"] _ tar_a ["b.txt"] Hr eq_refl _).
Defined.

Section lookup_file_with_facts.
Variable specialize : File → result unit.
Variable file_as_container : File → result (option Container).

(** X5.  What [lookup_file] can raise.  Only the [KeyError] of
  [get_member] is caught; [specialize(file)] and [file.as_container]
  are called outside the [try].  So the call raises exactly what the
  first unguarded failure on the way raises: [IndexError] when called
  without a name, what a [get_member] raised when that is no
  [KeyError], and whatever [specialize] or, with names remaining,
  [as_container] raised on a fetched member, a [KeyError] included.
  When neither of the two raises, the call is [lookup_file]. *)
Theorem lookup_file_raises self names :
(∀ e, lookup_file_with specialize file_as_container self names = Raise e
      ↔ escapes specialize file_as_container self names e)
∧ ((∀ file, specialize file = Ok tt) →
   (∀ file, file_as_container file = Ok (as_container file)) →
   lookup_file_with specialize file_as_container self names
   = lookup_file self names).
Proof.
split; [intros e; split|].
- revert self. induction names as [|name remainings IH]; intros self; simpl.
  { intros [= <-]. constructor. }
  destruct (get_member self name) as [file|e0] eqn:Hf.
  + destruct (specialize file) as [[]|e1] eqn:Hs; simpl.
    2:{ intros [= <-]. by eapply escapes_specialize. }
    destruct remainings as [|r remainings]; [done|].
    destruct (file_as_container file) as [[container|]|e2] eqn:Hc; simpl.
    * intros Hl. eapply escapes_nested; [done..|]. by apply IH.
    * done.
    * intros [= <-]. by eapply escapes_as_container.
  + intros Hl. assert (e0 = e ∧ e ≠ KeyError) as [-> Hne].
    { destruct e0; try done; by injection Hl as <-. }
    by apply escapes_get_member.
- induction 1 as [self|self name remainings e Hf Hne
                 |self name remainings file e Hf Hs
                 |self name remainings file e Hf Hs Hne Hc
                 |self name remainings file container e Hf Hs Hne Hc He IH];
    simpl.
  + done.
  + rewrite Hf. by destruct e.
  + by rewrite Hf, Hs.
  + rewrite Hf, Hs. simpl. destruct remainings; [done|]. by rewrite Hc.
  + rewrite Hf, Hs. simpl. destruct remainings; [done|]. by rewrite Hc.
- intros Hs Hc. revert self.
  induction names as [|name remainings IH]; intros self; simpl; [done|].
  destruct (get_member self name) as [file|e0]; [|done].
  rewrite Hs, Hc. simpl. destruct remainings; [done|].
  destruct (as_container file); [|done]. apply IH.
Qed.
End lookup_file_with_facts.

Lemma lookup_file_raises_witness :
  lookup_file_with (λ _, Ok tt) raising_as_container tar_removed
    ["a.txt"; "deeper"]
  = Raise AttributeError
  ∧ escapes (λ _, Ok tt) raising_as_container tar_removed
      ["a.txt"; "deeper"] AttributeError
  ∧ lookup_file_with (λ _, Ok tt) (λ file, Ok (as_container file)) tar_removed
      ["a.txt"; "deeper"]
    = lookup_file tar_removed ["a.txt"; "deeper"]
  ∧ lookup_file tar_removed ["a.txt"; "deeper"] = Ok None.
Proof.
  destruct (lookup_file_raises (λ _, Ok tt) raising_as_container tar_removed
              ["a.txt"; "deeper"]) as [Hescapes _].
  destruct (lookup_file_raises (λ _, Ok tt) (λ file, Ok (as_container file))
              tar_removed ["a.txt"; "deeper"]) as [_ Hsame].
  split_and!; [reflexivity| |by apply Hsame|reflexivity].
  by apply Hescapes.
Defined.

(** ** comparisons, continued *)

Lemma values_unique {V} (d : OrderedDict V) k v v' :
  NoDup (keys d) → (k, v) ∈ d → (k, v') ∈ d → v = v'.
Proof.
  induction d as [|[k0 v0] d IH]; [by intros _ ?%elem_of_nil|].
  rewrite keys_cons. intros [Hk Hd]%NoDup_cons.
  intros [[= -> ->]|H1]%elem_of_cons [[= ->]|H2]%elem_of_cons; try done.
  - exfalso. by eapply Hk, elem_of_keys.
  - exfalso. by eapply Hk, elem_of_keys.
  - by apply IH.
Qed.

Lemma well_matched_nil_l ms (other : OrderedDict File) :
  well_matched ms [] other → ms = [].
Proof.
  intros (_ & _ & Hin). destruct ms as [|c ms]; [done|].
  destruct (Hin c) as [H%elem_of_nil _]; [apply elem_of_cons; by left|done].
Qed.

Lemma well_matched_nil_r ms (my : OrderedDict File) :
  well_matched ms my [] → ms = [].
Proof.
  intros (_ & _ & Hin). destruct ms as [|c ms]; [done|].
  destruct (Hin c) as [_ H%elem_of_nil]; [apply elem_of_cons; by left|done].
Qed.

Lemma without_all {V} ks (d : OrderedDict V) :
  (∀ k, k ∈ keys d → k ∈ ks) → without ks d = [].
Proof.
  intros Hall. induction d as [|[k v] d IH]; [done|].
  unfold without. rewrite filter_cons_False.
  - apply IH. intros k' Hk'. apply Hall. rewrite keys_cons.
    apply elem_of_cons. by right.
  - simpl. intros Hk. apply Hk, Hall. rewrite keys_cons.
    apply elem_of_cons. by left.
Qed.

Lemma filter_all {A} (P : A → Prop) `{!∀ x, Decision (P x)} (l : list A) :
  (∀ x, x ∈ l → P x) → filter P l = l.
Proof. intros. by apply filter_Forall_id, Forall_forall. Qed.

(** The exact-name events, read against the dictionary they walk. *)
Lemma exact_events_Forall2 (my_full om : OrderedDict File) my E :
  NoDup (keys my_full) → my ⊆ my_full →
  names_mine E = keys my →
  Forall (λ e, ev_pass e = ExactName ∧ event_sound my_full om e) E →
  Forall2 (λ (p : string * File) e,
             (ev_pairing e).1.1 = p.2 ∧ (p.1, (ev_pairing e).1.2) ∈ om
             ∧ (ev_pairing e).2 = NO_COMMENT) my E.
Proof.
  intros Hnd. revert my. induction E as [|e E IH]; intros my Hsub Hn HE.
  { destruct my; [constructor|done]. }
  apply Forall_cons in HE as [[Hp Hs] HE].
  destruct e as [p a b [[m t] c]]. simpl in Hp. subst p.
  unfold event_sound in Hs. simpl in Hs.
  destruct a as [a|], b as [b|]; try done.
  destruct Hs as (-> & Hm & Ht & ->).
  rewrite names_mine_cons in Hn. simpl in Hn.
  destruct my as [|[k v] my]; [done|]. rewrite keys_cons in Hn.
  injection Hn as -> Hn.
  constructor.
  - simpl. split_and!; [|done..].
    eapply values_unique; [done..|]. apply Hsub, elem_of_cons. by left.
  - apply IH; [|done..]. intros x Hx. apply Hsub, elem_of_cons. by right.
Qed.

Section same_names.
Variable matcher : OrderedDict File → OrderedDict File → list candidate.
Variable cfg : Config.
Hypothesis matcher_ok : matcher_contract matcher.

Lemma pairing_passes_same_names (my om : OrderedDict File) :
NoDup (keys my) → NoDup (keys om) →
(∀ k, k ∈ keys my ↔ k ∈ keys om) →
raised (pairing_passes matcher cfg my om) = None
∧ Forall2 (λ (p : string * File) (pr : pairing),
             pr.1.1 = p.2 ∧ (p.1, pr.1.2) ∈ om ∧ pr.2 = NO_COMMENT)
    my (yielded (pairing_passes matcher cfg my om)).
Proof.
intros Hmy Hom Hsame.
destruct (pairing_passes_trace_spec matcher cfg matcher_ok my om Hmy Hom)
  as (E & F & Htr & Em & Et & Es & Fm & Ft & Fr & Fs).
assert (without (keys om) my = []) as Hrm
  by (apply without_all; intros k; apply Hsame).
assert (without (keys my) om = []) as Hro
  by (apply without_all; intros k; apply Hsame).
rewrite Hrm, Hro in Htr, Fr.
assert (matcher [] [] = []) as Hms.
{ apply (well_matched_nil_l _ []). apply matcher_ok; apply NoDup_nil_2. }
rewrite Hms in Htr, Fr. apply Forall2_nil_inv_r in Fr as ->.
assert (pairing_passes_trace matcher cfg my om = Gen E None) as Hrun.
{ rewrite Htr. simpl. destruct (new_file cfg); by rewrite ?app_nil_r. }
rewrite <-pairing_passes_trace_erase, Hrun. unfold gen_map. simpl.
split; [done|]. apply Forall2_fmap_r.
apply (exact_events_Forall2 my om my E); [done..| |done].
rewrite Em. apply filter_all. intros k. apply Hsame.
Qed.
End same_names.

Lemma comparisons_namesakes matcher cfg self other m0 o0 n1 n2 my om :
  matcher_contract matcher →
  get_members self = Ok m0 →
  get_members other = Ok o0 →
  get_nested_container self = Ok n1 →
  get_nested_container other = Ok n2 →
  n1 = None ∨ n2 = None →
  unpack n1 m0 = Ok my →
  unpack n2 o0 = Ok om →
  (∀ k, k ∈ keys my ↔ k ∈ keys om) →
  raised (comparisons matcher cfg self other) = None
  ∧ Forall2 (λ (p : string * File) (pr : pairing),
               pr.1.1 = p.2 ∧ (p.1, pr.1.2) ∈ om ∧ pr.2 = NO_COMMENT)
      my (yielded (comparisons matcher cfg self other)).
Proof.
  intros Hmatcher Hm Ho H1 H2 Hn Hu1 Hu2 Hsame.
  rewrite (comparisons_passes _ _ _ _ _ _ _ _ _ _ Hm Ho H1 H2 Hn Hu1 Hu2).
  apply pairing_passes_same_names; [done| | |done].
  - eapply unpack_NoDup; [|exact Hu1]. by eapply get_members_NoDup.
  - eapply unpack_NoDup; [|exact Hu2]. by eapply get_members_NoDup.
Qed.

(** X6.  Two containers that list the same member names, in whatever
    order: [comparisons] yields exactly one pairing per member of [self],
    in [self]'s listing order, each pairing the member with its namesake,
    without comment; there is no fuzzy and no residual pairing, with or
    without [new_file]. *)
Theorem comparisons_same_names matcher cfg self other m0 o0 n1 n2 my om :
  matcher_contract matcher →
  get_members self = Ok m0 →
  get_members other = Ok o0 →
  get_nested_container self = Ok n1 →
  get_nested_container other = Ok n2 →
  n1 = None ∨ n2 = None →
  unpack n1 m0 = Ok my →
  unpack n2 o0 = Ok om →
  (∀ k, k ∈ keys my ↔ k ∈ keys om) →
  raised (comparisons matcher cfg self other) = None
  ∧ Forall2 (λ (p : string * File) (pr : pairing),
               pr.1.1 = p.2 ∧ (p.1, pr.1.2) ∈ om ∧ pr.2 = NO_COMMENT)
      my (yielded (comparisons matcher cfg self other)).
Proof. apply comparisons_namesakes. Qed.

Lemma comparisons_same_names_witness :
  matcher_contract sample_matcher
  ∧ comparisons sample_matcher with_added_removed tar_repeating
      (instantiate (listing ["c"; "b"; "a"] "s/") (plain "s.tar"))
    = Gen [ (plain "r/b", plain "s/b", NO_COMMENT);
            (plain "r/a", plain "s/a", NO_COMMENT);
            (plain "r/c", plain "s/c", NO_COMMENT) ] None
  ∧ raised (comparisons sample_matcher without_added_removed tar_repeating
              (instantiate (listing ["c"; "b"; "a"] "s/") (plain "s.tar")))
    = None.
Proof.
  pose proof (greedy_fuzzy_matching_contract sample_similarity 60) as Hc.
  split_and!; [exact Hc|reflexivity|].
  refine (proj1 (comparisons_same_names sample_matcher without_added_removed
            tar_repeating
            (instantiate (listing ["c"; "b"; "a"] "s/") (plain "s.tar"))
            _ _ None None _ _ Hc eq_refl eq_refl eq_refl eq_refl
            (or_introl eq_refl) eq_refl eq_refl _)).
  intros k. change (k ∈ ["b"; "a"; "c"] ↔ k ∈ ["c"; "b"; "a"]).
  rewrite !elem_of_cons. tauto.
Defined.

Lemma Forall2_map_eq {A B} (f : A → B) (R : A → B → Prop) l out :
  Forall2 R l out → (∀ x y, x ∈ l → R x y → y = f x) → out = f <$> l.
Proof.
  induction 1 as [|x y l out HR _ IH]; intros Hf; [done|].
  rewrite fmap_cons. f_equal.
  - apply Hf; [apply elem_of_cons; by left|done].
  - apply IH. intros x' y' Hx'. apply Hf, elem_of_cons. by right.
Qed.

Lemma generated_eq {A} (g : generated A) ys r :
  yielded g = ys → raised g = r → g = Gen ys r.
Proof. destruct g. simpl. by intros -> ->. Qed.

(** X7.  Comparing a container with an identical copy, or with itself:
    every member is paired with itself, in listing order, without comment,
    and nothing else is yielded. *)
Theorem comparisons_identical matcher cfg self other d :
  matcher_contract matcher →
  get_members self = Ok d →
  get_members other = Ok d →
  get_nested_container self = Ok None →
  get_nested_container other = Ok None →
  comparisons matcher cfg self other
  = Gen ((λ p : string * File, (p.2, p.2, NO_COMMENT)) <$> d) None.
Proof.
  intros Hmatcher Hm Ho H1 H2.
  pose proof (get_members_NoDup _ _ Hm) as Hnd.
  destruct (comparisons_namesakes matcher cfg self other d d None None d d)
    as [Hr HF]; [done..|by left|done|done|done|].
  apply generated_eq; [|done].
  apply (Forall2_map_eq _ _ _ _ HF).
  intros [k v] [[a b] c] Hin (Ha & Hb & Hc). simpl in *. subst a c.
  by rewrite (values_unique d k v b Hnd Hin Hb).
Qed.

Lemma comparisons_identical_witness :
  matcher_contract sample_matcher
  ∧ comparisons sample_matcher with_added_removed tar_a tar_a
    = Gen [ (plain "a/a.txt", plain "a/a.txt", NO_COMMENT);
            (plain "a/b.txt", plain "a/b.txt", NO_COMMENT);
            (plain "a/x", plain "a/x", NO_COMMENT) ] None.
Proof.
  pose proof (greedy_fuzzy_matching_contract sample_similarity 60) as Hc.
  split; [exact Hc|].
  exact (comparisons_identical sample_matcher with_added_removed tar_a tar_a
           _ Hc eq_refl eq_refl eq_refl eq_refl).
Defined.

(** ** A container and the placeholder for it *)


Lemma get_members_listed self d :
  get_members self = Ok d →
  ∃ names, get_member_names self = Ok names
           ∧ keys d = reverse (remove_dups (reverse names)).
Proof.
  intros Hd. destruct (get_member_names self) as [names|e] eqn:Hn.
  - exists names. split; [done|]. by apply (get_members_keys self).
  - unfold get_members, get_all_members in Hd. by rewrite Hn in Hd.
Qed.




(** ** How many pairings *)

Lemma length_names_mine tr :
  Forall (λ e, is_Some (ev_mine e)) tr → length (names_mine tr) = length tr.
Proof.
  induction 1 as [|[p a b x] tr [n Hn] _ IH]; [done|].
  simpl in Hn. subst a. rewrite names_mine_cons. simpl. by rewrite IH.
Qed.

Lemma length_keys {V} (d : OrderedDict V) : length (keys d) = length d.
Proof. apply length_fmap. Qed.

Lemma length_added_removed_trace my other :
  length (added_removed_trace my other) = length my + length other.
Proof. unfold added_removed_trace. by rewrite length_app, !length_fmap. Qed.

Lemma length_without_names {V} ks (d : OrderedDict V) :
  NoDup (keys d) → NoDup ks → ks ⊆ keys d →
  length ks + length (without ks d) = length d.
Proof.
  intros Hd Hks Hsub.
  rewrite <-(length_keys (without ks d)), keys_without, <-length_app.
  by rewrite (split_by_names _ _ Hd Hks Hsub), length_keys.
Qed.

Lemma length_unmatched {V W} (d : OrderedDict V) (d' : OrderedDict W) :
  length (filter (.∈ keys d') (keys d)) + length (without (keys d') d)
  = length d.
Proof.
  rewrite <-(length_keys (without _ d)), keys_without, <-length_app.
  by rewrite (filter_app_complement (.∈ keys d') (keys d)), length_keys.
Qed.

Lemma length_namesakes {V W} (d : OrderedDict V) (d' : OrderedDict W) :
  NoDup (keys d) → NoDup (keys d') →
  length (filter (.∈ keys d') (keys d)) = length (filter (.∈ keys d) (keys d')).
Proof.
  intros Hd Hd'. apply Permutation_length, NoDup_Permutation;
    [by apply NoDup_filter..|].
  intros k. rewrite !list_elem_of_filter. tauto.
Qed.

(** X9.  The number of pairings.  With [exact] the number of names both
    sides list and [fuzzy] the number of pairs the matcher answers:
    without [new_file] there are [exact + fuzzy] pairings, at most as many
    as the shorter side has members; with [new_file] there are
    [len(my) + len(other) - exact - fuzzy], which is at least
    [max(len(my), len(other))], the total handed to [Progress], and at
    most the sum. *)
Theorem comparisons_count matcher cfg self other m0 o0 n1 n2 my om :
  matcher_contract matcher →
  get_members self = Ok m0 →
  get_members other = Ok o0 →
  get_nested_container self = Ok n1 →
  get_nested_container other = Ok n2 →
  n1 = None ∨ n2 = None →
  unpack n1 m0 = Ok my →
  unpack n2 o0 = Ok om →
  let n := length (yielded (comparisons matcher cfg self other)) in
  let exact := length (filter (.∈ keys om) (keys my)) in
  let fuzzy :=
    length (matcher (without (keys om) my) (without (keys my) om)) in
  (new_file cfg = false →
     n = exact + fuzzy ∧ (n ≤ length my `min` length om)%nat)
  ∧ (new_file cfg = true →
       n + exact + fuzzy = length my + length om
       ∧ (length my `max` length om ≤ n ≤ length my + length om)%nat).
Proof.
  intros Hmatcher Hm Ho H1 H2 Hn Hu1 Hu2 n exact fuzzy.
  assert (NoDup (keys my)) as Hnd1.
  { eapply unpack_NoDup; [|exact Hu1]. by eapply get_members_NoDup. }
  assert (NoDup (keys om)) as Hnd2.
  { eapply unpack_NoDup; [|exact Hu2]. by eapply get_members_NoDup. }
  destruct (pairing_passes_trace_spec matcher cfg Hmatcher my om Hnd1 Hnd2)
    as (E & F & Htr & Em & Et & Es & Fm & Ft & Fr & Fs).
  set (rm := without (keys om) my) in *.
  set (ro := without (keys my) om) in *.
  set (ms := matcher rm ro) in *.
  destruct (Hmatcher rm ro) as (Hms1 & Hms2 & Hin);
    [by apply NoDup_keys_without..|]. fold ms in Hms1, Hms2, Hin.
  assert (length E = exact) as HE.
  { unfold exact. rewrite <-Em. symmetry. apply length_names_mine.
    eapply Forall_impl; [exact Es|]. intros e [Hp He].
    eapply event_sound_named; [|exact He]. by rewrite Hp. }
  assert (length F = fuzzy) as HF by by apply Forall2_length in Fr.
  assert (exact + length rm = length my) as Hrm by apply length_unmatched.
  assert (exact + length ro = length om) as Hro.
  { unfold exact. rewrite length_namesakes by done. apply length_unmatched. }
  assert (fuzzy + length (without (cand_mine <$> ms) rm) = length rm) as Hfm.
  { unfold fuzzy. fold rm ro ms. rewrite <-(length_fmap cand_mine ms).
    apply length_without_names; [by apply NoDup_keys_without|done|].
    intros k (c & -> & Hc)%list_elem_of_fmap. by apply Hin. }
  assert (fuzzy + length (without (cand_theirs <$> ms) ro) = length ro) as Hfo.
  { unfold fuzzy. fold rm ro ms. rewrite <-(length_fmap cand_theirs ms).
    apply length_without_names; [by apply NoDup_keys_without|done|].
    intros k (c & -> & Hc)%list_elem_of_fmap. by apply Hin. }
  assert (n = length (yielded (pairing_passes_trace matcher cfg my om))) as ->.
  { unfold n. rewrite <-comparisons_trace_erase.
    rewrite (comparisons_trace_passes _ _ _ _ _ _ _ _ _ _
               Hm Ho H1 H2 Hn Hu1 Hu2).
    unfold gen_map. simpl. apply length_fmap. }
  rewrite Htr. simpl. rewrite !length_app, HE, HF.
  split; intros ->.
  - simpl. lia.
  - rewrite length_added_removed_trace. lia.
Qed.

Lemma comparisons_count_witness :
  matcher_contract sample_matcher
  ∧ length (yielded (comparisons sample_matcher with_added_removed tar_a tar_b))
    = 4
  ∧ length (yielded (comparisons sample_matcher without_added_removed tar_a tar_b))
    = 2
  ∧ (3 `max` 3 ≤ length (yielded (comparisons sample_matcher with_added_removed
                                    tar_a tar_b)) ≤ 3 + 3)%nat.
Proof.
  pose proof (greedy_fuzzy_matching_contract sample_similarity 60) as Hc.
  split_and!; [exact Hc|reflexivity..| |].
  - exact (proj1 (proj2 (proj2 (comparisons_count sample_matcher
             with_added_removed tar_a tar_b _ _ None None _ _
             Hc eq_refl eq_refl eq_refl eq_refl (or_introl eq_refl)
             eq_refl eq_refl) eq_refl))).
  - exact (proj2 (proj2 (proj2 (comparisons_count sample_matcher
             with_added_removed tar_a tar_b _ _ None None _ _
             Hc eq_refl eq_refl eq_refl eq_refl (or_introl eq_refl)
             eq_refl eq_refl) eq_refl))).
Defined.

(** ** Edges of comparisons *)

Lemma names_mine_nil_named tr :
  Forall (λ e, is_Some (ev_mine e)) tr → names_mine tr = [] → tr = [].
Proof.
  intros Hall Hn. apply length_names_mine in Hall. rewrite Hn in Hall.
  by destruct tr.
Qed.

Lemma filter_none {A} (P : A → Prop) `{!∀ x, Decision (P x)} (l : list A) :
  (∀ x, x ∈ l → ¬ P x) → filter P l = [].
Proof.
  induction l as [|x l IH]; intros HP; [done|].
  rewrite filter_cons_False by (apply HP, elem_of_cons; by left).
  apply IH. intros y Hy. apply HP, elem_of_cons. by right.
Qed.

(** X10.  One side lists nothing.  With [new_file], every member of the
    other side is reported against a [MissingFile] that refers to it, in
    listing order; without it, [comparisons] yields nothing at all. *)
Theorem comparisons_with_empty_side matcher cfg self other d :
  matcher_contract matcher →
  get_nested_container self = Ok None →
  get_nested_container other = Ok None →
  (get_members self = Ok d → get_members other = Ok [] →
   comparisons matcher cfg self other
   = Gen (if new_file cfg
          then (λ my_member,
                  (my_member, MissingFile dev_null (Some my_member),
                   NO_COMMENT)) <$> values d
          else []) None)
  ∧ (get_members self = Ok [] → get_members other = Ok d →
     comparisons matcher cfg self other
     = Gen (if new_file cfg
            then (λ other_member,
                    (MissingFile dev_null (Some other_member), other_member,
                     NO_COMMENT)) <$> values d
            else []) None).
Proof.
  intros Hmatcher H1 H2. split; intros Hm Ho.
  - pose proof (get_members_NoDup _ _ Hm) as Hnd.
    rewrite (comparisons_passes _ _ _ _ _ _ _ _ _ _ Hm Ho H1 H2
               (or_introl eq_refl) eq_refl eq_refl).
    destruct (pairing_passes_trace_spec matcher cfg Hmatcher d [] Hnd)
      as (E & F & Htr & Em & Et & Es & Fm & Ft & Fr & Fs); [apply NoDup_nil_2|].
    change (keys (@nil (string * File))) with (@nil string) in *.
    rewrite without_nil in Htr, Fr. change (without (keys d) []) with
      (@nil (string * File)) in *.
    assert (matcher d [] = []) as Hms.
    { apply (well_matched_nil_r _ d). apply Hmatcher; [done|apply NoDup_nil_2]. }
    rewrite Hms in Htr, Fr. apply Forall2_nil_inv_r in Fr as ->.
    assert (E = []) as ->.
    { apply names_mine_nil_named.
      - eapply Forall_impl; [exact Es|]. intros e [Hp He].
        eapply event_sound_named; [|exact He]. by rewrite Hp.
      - rewrite Em. apply filter_none. intros k _ ?%elem_of_nil. done. }
    rewrite <-pairing_passes_trace_erase, Htr. unfold gen_map. simpl.
    rewrite !without_nil. destruct (new_file cfg); [|done].
    rewrite added_removed_trace_erase. unfold added_removed. simpl.
    by rewrite app_nil_r.
  - pose proof (get_members_NoDup _ _ Ho) as Hnd.
    rewrite (comparisons_passes _ _ _ _ _ _ _ _ _ _ Hm Ho H1 H2
               (or_introl eq_refl) eq_refl eq_refl).
    destruct (pairing_passes_trace_spec matcher cfg Hmatcher [] d)
      as (E & F & Htr & Em & Et & Es & Fm & Ft & Fr & Fs);
      [apply NoDup_nil_2|done|].
    change (keys (@nil (string * File))) with (@nil string) in *.
    rewrite without_nil in Htr, Fr. change (without (keys d) []) with
      (@nil (string * File)) in *.
    assert (matcher [] d = []) as Hms.
    { apply (well_matched_nil_l _ d). apply Hmatcher; [apply NoDup_nil_2|done]. }
    rewrite Hms in Htr, Fr. apply Forall2_nil_inv_r in Fr as ->.
    assert (E = []) as ->.
    { apply names_mine_nil_named; [|done].
      eapply Forall_impl; [exact Es|]. intros e [Hp He].
      eapply event_sound_named; [|exact He]. by rewrite Hp. }
    rewrite <-pairing_passes_trace_erase, Htr. unfold gen_map. simpl.
    rewrite !without_nil. destruct (new_file cfg); [|done].
    by rewrite added_removed_trace_erase.
Qed.

Lemma comparisons_with_empty_side_witness :
  matcher_contract sample_matcher
  ∧ comparisons sample_matcher with_added_removed tar_a tar_empty
    = Gen [ (plain "a/a.txt", MissingFile dev_null (Some (plain "a/a.txt")),
             NO_COMMENT);
            (plain "a/b.txt", MissingFile dev_null (Some (plain "a/b.txt")),
             NO_COMMENT);
            (plain "a/x", MissingFile dev_null (Some (plain "a/x")),
             NO_COMMENT) ] None
  ∧ comparisons sample_matcher without_added_removed tar_empty tar_a
    = Gen [] None.
Proof.
  pose proof (greedy_fuzzy_matching_contract sample_similarity 60) as Hc.
  split_and!; [exact Hc| |].
  - exact (proj1 (comparisons_with_empty_side sample_matcher
             with_added_removed tar_a tar_empty _ Hc eq_refl eq_refl)
             eq_refl eq_refl).
  - exact (proj2 (comparisons_with_empty_side sample_matcher
             without_added_removed tar_empty tar_a _ Hc eq_refl eq_refl)
             eq_refl eq_refl).
Defined.

Lemma fuzzy_trace_Ok_names ms (my other : OrderedDict File) F st :
  fuzzy_trace ms my other = (F, Ok st) →
  names_mine F = cand_mine <$> ms ∧ names_theirs F = cand_theirs <$> ms.
Proof.
  revert my other F.
  induction ms as [|[[a b] s] ms IH]; intros my other F; simpl.
  { by intros [= <- _]. }
  destruct (pop a my) as [[m my']|]; [|done].
  destruct (pop b other) as [[o other']|]; [|done].
  destruct (fuzzy_trace ms my' other') as [F' st'] eqn:HF'.
  intros [= <- ->]. destruct (IH _ _ _ HF') as [H1 H2].
  by rewrite names_mine_cons, names_theirs_cons, H1, H2.
Qed.

(** X11.  The matcher's contract is exactly what the run needs: with both
    member dictionaries fetched, [comparisons] ends normally if and only
    if the matcher's answer, for the members without a namesake, names
    members of those dictionaries and none twice; otherwise it raises
    [KeyError]. *)
Theorem comparisons_ends_normally_iff_well_matched
    matcher cfg self other m0 o0 n1 n2 my om :
  get_members self = Ok m0 →
  get_members other = Ok o0 →
  get_nested_container self = Ok n1 →
  get_nested_container other = Ok n2 →
  n1 = None ∨ n2 = None →
  unpack n1 m0 = Ok my →
  unpack n2 o0 = Ok om →
  let rm := without (keys om) my in
  let ro := without (keys my) om in
  (raised (comparisons matcher cfg self other) = None
   ↔ well_matched (matcher rm ro) rm ro)
  ∧ (raised (comparisons matcher cfg self other) = None
     ∨ raised (comparisons matcher cfg self other) = Some KeyError).
Proof.
  intros Hm Ho H1 H2 Hn Hu1 Hu2 rm ro.
  assert (NoDup (keys my)) as Hnd1.
  { eapply unpack_NoDup; [|exact Hu1]. by eapply get_members_NoDup. }
  assert (NoDup (keys om)) as Hnd2.
  { eapply unpack_NoDup; [|exact Hu2]. by eapply get_members_NoDup. }
  destruct (exact_name_trace_spec my [] om) as (E & HE & _);
    [done..|intros k _; apply not_elem_of_nil|]. simpl in HE. fold rm ro in HE.
  assert (NoDup (keys rm)) as Hrm by by apply NoDup_keys_without.
  assert (NoDup (keys ro)) as Hro by by apply NoDup_keys_without.
  destruct (fuzzy_trace_any (matcher rm ro) rm ro Hrm Hro)
    as (F & st & HF & _ & Fn1 & Fn2 & Fs1 & Fs2 & Hst).
  assert (raised (comparisons matcher cfg self other)
          = match st with Ok _ => None | Raise e => Some e end) as Hraised.
  { rewrite <-comparisons_trace_erase.
    rewrite (comparisons_trace_passes _ _ _ _ _ _ _ _ _ _
               Hm Ho H1 H2 Hn Hu1 Hu2).
    unfold pairing_passes_trace. rewrite HE. fold rm ro. rewrite HF.
    by destruct st as [[??]|?]. }
  rewrite Hraised. destruct st as [[my' other']|e].
  - split; [|by left]. split; [intros _|done].
    destruct (fuzzy_trace_Ok_names _ _ _ _ _ HF) as [Hn1 Hn2].
    rewrite Hn1 in Fn1, Fs1. rewrite Hn2 in Fn2, Fs2.
    split_and!; [done..|]. intros c Hc. split.
    + apply Fs1, list_elem_of_fmap. by exists c.
    + apply Fs2, list_elem_of_fmap. by exists c.
  - subst e. split; [|by right]. split; [done|]. intros Hwm. exfalso.
    destruct (fuzzy_trace_spec (matcher rm ro) rm ro Hrm Hro Hwm)
      as (F' & HF' & _).
    rewrite HF in HF'. discriminate HF'.
Qed.

Lemma comparisons_ends_normally_iff_well_matched_witness :
  raised (comparisons repeating_matcher with_added_removed tar_a tar_b)
  = Some KeyError
  ∧ ¬ well_matched
        (repeating_matcher
           [("b.txt", plain "a/b.txt"); ("x", plain "a/x")]
           [("c.txt", plain "b/c.txt"); ("y", plain "b/y")])
        [("b.txt", plain "a/b.txt"); ("x", plain "a/x")]
        [("c.txt", plain "b/c.txt"); ("y", plain "b/y")].
Proof.
  split; [reflexivity|]. intros Hwm.
  pose proof (proj2 (proj1 (comparisons_ends_normally_iff_well_matched
                repeating_matcher with_added_removed tar_a tar_b _ _
                None None _ _ eq_refl eq_refl eq_refl eq_refl
                (or_introl eq_refl) eq_refl eq_refl)) Hwm) as Hraised.
  discriminate Hraised.
Defined.

(** X12.  A one-member wrapper that lists no member at all: its members
    are fetched (there are none), but [get_nested_container] raises
    [IndexError] on [get_member_names()[0]], so a comparison with such a
    wrapper on either side raises [IndexError] without yielding, and so
    does [get_member_names_nested], which leaves the instance as it
    was. *)
Theorem one_member_container_without_member
    matcher cfg cls names member src :
  names src = Ok [] →
  let self := instantiate (OneMemberContainer cls names member) src in
  get_members self = Ok []
  ∧ get_nested_container self = Raise IndexError
  ∧ (∀ list_is,
       get_member_names_nested list_is self = (Raise IndexError, self))
  ∧ (∀ other o, get_members other = Ok o →
       comparisons matcher cfg self other = Gen [] (Some IndexError))
  ∧ (∀ other o n, get_members other = Ok o →
       get_nested_container other = Ok n →
       comparisons matcher cfg other self = Gen [] (Some IndexError)).
Proof.
  intros Hnames self.
  assert (get_members self = Ok []) as Hm.
  { unfold get_members, get_all_members, self. simpl. by rewrite Hnames. }
  assert (get_nested_container self = Raise IndexError) as Hn.
  { unfold self. simpl. by rewrite Hnames. }
  split_and!; [done|done| | |].
  - intros list_is. unfold get_member_names_nested. rewrite Hn.
    unfold self at 1. simpl. by rewrite Hnames.
  - intros other o Ho. unfold comparisons. by rewrite Hm, Ho, Hn.
  - intros other o n Ho Hno. unfold comparisons. by rewrite Ho, Hm, Hno, Hn.
Qed.

Lemma one_member_container_without_member_witness :
  get_member_names gz_empty = Ok []
  ∧ get_nested_container gz_empty = Raise IndexError
  ∧ comparisons sample_matcher with_added_removed gz_empty gz_a
    = Gen [] (Some IndexError)
  ∧ comparisons sample_matcher with_added_removed tar_a gz_empty
    = Gen [] (Some IndexError).
Proof.
  destruct (one_member_container_without_member sample_matcher
              with_added_removed "GzipContainer" (λ _, Ok [])
              (λ _ _, Raise KeyError) (plain "empty.gz") eq_refl)
    as (_ & Hn & _ & Hl & Hr).
  split_and!; [reflexivity|exact Hn| |].
  - exact (Hl gz_a _ eq_refl).
  - exact (Hr tar_a _ _ eq_refl eq_refl).
Defined.

(** ** MissingContainer, continued *)

(** X13.  When a [MissingContainer] can list names: exactly when its
    source is a [MissingFile] standing in for a file with a container
    facet whose own listing succeeds.  On a regular source, on a
    placeholder without counterpart, and on a counterpart without
    container facet the listing raises [AttributeError].  In particular
    the file a [MissingContainer] hands out for a member cannot back a
    container: that container's listing, its [get_members] and any
    comparison with it raise [AttributeError]. *)
Theorem missing_container_listing :
  (∀ source names,
     get_member_names (instantiate MissingContainer source) = Ok names
     ↔ ∃ counterpart c,
         other_file source = Ok (Some counterpart)
         ∧ as_container counterpart = Some c
         ∧ get_member_names c = Ok names)
  ∧ (∀ name facet,
       get_member_names (instantiate MissingContainer (RegularFile name facet))
       = Raise AttributeError)
  ∧ (∀ path counterpart,
       as_container counterpart = None →
       get_member_names
         (instantiate MissingContainer (MissingFile path (Some counterpart)))
       = Raise AttributeError)
  ∧ (∀ source member_name file cls matcher cfg other,
       get_member (instantiate MissingContainer source) member_name = Ok file →
       get_member_names (Container_new cls file) = Raise AttributeError
       ∧ get_members (Container_new cls file) = Raise AttributeError
       ∧ comparisons matcher cfg (Container_new cls file) other
         = Gen [] (Some AttributeError)).
Proof.
  split_and!.
  - intros source names. unfold instantiate, get_member_names. simpl. split.
    + destruct source as [n f|p [o|]]; simpl; try done.
      destruct (as_container o) as [c|] eqn:Hc; simpl; [|done].
      intros Hn. exists o, c. split_and!; [done..|]. by destruct c.
    + intros (o & c & Ho & Hc & Hn). rewrite Ho. simpl. rewrite Hc. simpl.
      by destruct c.
  - done.
  - intros path counterpart Hc. unfold instantiate, get_member_names. simpl.
    by rewrite Hc.
  - intros source member_name file cls matcher cfg other [= <-].
    by split_and!.
Qed.

Lemma missing_container_listing_witness :
  get_member (instantiate MissingContainer removed_tar) "a.txt"
  = Ok (MissingFile dev_null None)
  ∧ get_members (Container_new (listing ["a.txt"] "") (MissingFile dev_null None))
    = Raise AttributeError
  ∧ get_member_names
      (instantiate MissingContainer (MissingFile dev_null (Some (plain "a"))))
    = Raise AttributeError.
Proof.
  destruct missing_container_listing as (_ & _ & Hfacet & Hmember).
  split_and!; [reflexivity| |].
  - exact (proj1 (proj2 (Hmember removed_tar "a.txt" _ (listing ["a.txt"] "")
                           sample_matcher with_added_removed tar_a eq_refl))).
  - exact (Hfacet dev_null (plain "a") eq_refl).
Defined.

(** ** get_member_names_nested *)

#[local] Instance string_leb_total : Total (λ a b : string, String.leb a b).
Proof.
  intros a b. destruct (String.leb_total a b) as [H|H]; [left|right];
    by rewrite H.
Qed.

Lemma sorted_Permutation names : sorted names ≡ₚ names.
Proof. apply merge_sort_Permutation. Qed.

Lemma sorted_Sorted names : Sorted (λ a b : string, String.leb a b) (sorted names).
Proof. apply (Sorted_merge_sort _). Qed.

#[local] Instance nested_label_inj label : Inj (=) (=) (nested_label label).
Proof.
  intros a b. unfold nested_label. intros H.
  by repeat apply (inj (String.app _)) in H.
Qed.

Lemma with_member_names_listing self names :
  get_member_names (with_member_names self names) = Ok names
  ∧ get_nested_container (with_member_names self names)
    = get_nested_container self
  ∧ ∀ name, get_member (with_member_names self names) name
            = get_member self name.
Proof. by destruct self. Qed.

(** For the classes of container.py the update is what a new evaluation
    of the methods gives: [get_member] does not depend on the listing, the
    base class has no nested container, and a [OneMemberContainer] takes
    its nested container from the first name, which appending to a
    non-empty list leaves in place. *)
Lemma with_member_names_instantiate cls member src first own added :
  with_member_names
    (instantiate (Subclass cls (λ _, Ok own) member) src) (own ++ added)
  = instantiate (Subclass cls (λ _, Ok (own ++ added)) member) src
  ∧ with_member_names
      (instantiate (OneMemberContainer cls (λ _, Ok (first :: own)) member)
         src)
      ((first :: own) ++ added)
    = instantiate
        (OneMemberContainer cls (λ _, Ok ((first :: own) ++ added)) member)
        src.
Proof. done. Qed.

(** One call on an instance with a nested container. *)
Lemma get_member_names_nested_extends list_is self own nested inner :
  get_member_names self = Ok own →
  get_nested_container self = Ok (Some nested) →
  get_member_names nested = Ok inner →
  get_member_names_nested list_is self
  = (Ok (own ++ (nested_label (file_name (source nested)) <$> sorted inner)),
     match list_is with
     | NewList => self
     | KeptList =>
         with_member_names self
           (own ++ (nested_label (file_name (source nested)) <$> sorted inner))
     end).
Proof.
  intros Hown Hnested Hinner. unfold get_member_names_nested.
  by rewrite Hown, Hnested, Hinner.
Qed.

Lemma calls_new_list n self own nested inner :
  get_member_names self = Ok own →
  get_nested_container self = Ok (Some nested) →
  get_member_names nested = Ok inner →
  (calls NewList n self).1
  = replicate n
      (Ok (own ++ (nested_label (file_name (source nested)) <$> sorted inner))).
Proof.
  intros Hown Hnested Hinner. induction n as [|n IH]; [done|]. simpl.
  rewrite (get_member_names_nested_extends _ _ _ _ _ Hown Hnested Hinner).
  destruct (calls NewList n self) as [later final]. simpl in *. by rewrite IH.
Qed.

Lemma calls_kept_list n self own nested inner :
  get_member_names self = Ok own →
  get_nested_container self = Ok (Some nested) →
  get_member_names nested = Ok inner →
  (calls KeptList n self).1
  = (λ k, Ok (own ++ concat (replicate (S k)
                 (nested_label (file_name (source nested)) <$> sorted inner))))
    <$> seq 0 n.
Proof.
  revert self own. induction n as [|n IH]; intros self own Hown Hnested Hinner;
    [done|].
  simpl calls.
  rewrite (get_member_names_nested_extends _ _ _ _ _ Hown Hnested Hinner).
  set (entries := nested_label (file_name (source nested)) <$> sorted inner).
  specialize (IH (with_member_names self (own ++ entries)) (own ++ entries)).
  destruct (calls KeptList n (with_member_names self (own ++ entries)))
    as [later final].
  destruct (with_member_names_listing self (own ++ entries)) as (Hl & Hn & _).
  simpl in *. rewrite IH; [|by rewrite ?Hn..].
  f_equal; [by rewrite app_nil_r|].
  rewrite <-fmap_S_seq, <-list_fmap_compose. apply list_fmap_ext.
  intros _ k _. simpl. by rewrite <-!app_assoc.
Qed.

(** X14.  [get_member_names_nested] is for display.  Without a nested
    container it returns the container's own listing and changes nothing.
    With one, the own listing comes first, followed by one entry per name
    of the nested container, in sorted order, each made of the nested
    container's source name in brackets, a space, and the name; distinct
    nested names give distinct entries.  The entries are appended in
    place to the list [get_member_names] handed out.  When that is a new
    list per call, the instance is unchanged and every call returns the
    same.  When it is the list the instance keeps, the instance lists the
    entries from then on: the call after adds them once more, so that the
    k-th call returns the own listing followed by k copies of them, and
    [get_members] raises what [get_member] raises on the first entry. *)
Theorem get_member_names_nested_display list_is self own :
  get_member_names self = Ok own →
  (get_nested_container self = Ok None →
   get_member_names_nested list_is self = (Ok own, self))
  ∧ (∀ nested inner,
       get_nested_container self = Ok (Some nested) →
       get_member_names nested = Ok inner →
       ∃ shown,
         let entries := nested_label (file_name (source nested)) <$> shown in
         shown ≡ₚ inner
         ∧ Sorted (λ a b : string, String.leb a b) shown
         ∧ (NoDup inner → NoDup entries)
         ∧ get_member_names_nested list_is self
           = (Ok (own ++ entries),
              match list_is with
              | NewList => self
              | KeptList => with_member_names self (own ++ entries)
              end)
         ∧ (∀ n, (calls NewList n self).1 = replicate n (Ok (own ++ entries)))
         ∧ (∀ n, (calls KeptList n self).1
                 = (λ k, Ok (own ++ concat (replicate (S k) entries)))
                   <$> seq 0 n)
         ∧ (∀ entry e,
              Forall (λ name, ∃ file, get_member self name = Ok file) own →
              head entries = Some entry →
              get_member self entry = Raise e →
              get_members (get_member_names_nested KeptList self).2
              = Raise e)).
Proof.
  intros Hown. split.
  - intros Hnone. unfold get_member_names_nested. by rewrite Hown, Hnone.
  - intros nested inner Hnested Hinner. exists (sorted inner). simpl.
    split_and!.
    + apply sorted_Permutation.
    + apply sorted_Sorted.
    + intros Hnd. apply (NoDup_fmap_2 _). by rewrite sorted_Permutation.
    + by apply get_member_names_nested_extends.
    + intros n. by apply calls_new_list.
    + intros n. by apply calls_kept_list.
    + intros entry e Hfetch Hhead Hentry.
      rewrite (get_member_names_nested_extends _ _ _ _ _ Hown Hnested Hinner).
      simpl. unfold get_members, get_all_members.
      destruct (nested_label (file_name (source nested)) <$> sorted inner)
        as [|first rest] eqn:Hentries; [done|].
      injection Hhead as ->.
      destruct (with_member_names_listing self (own ++ entry :: rest))
        as (-> & _ & Hmember).
      simpl. rewrite (fetch_all_Raise _ own entry rest e); [done| |].
      * eapply Forall_impl; [exact Hfetch|]. intros name [file Hfile].
        exists file. by rewrite Hmember.
      * by rewrite Hmember.
Qed.

Lemma get_member_names_nested_display_witness :
  get_member_names gz_b = Ok ["payload"]
  ∧ (get_member_names_nested KeptList gz_b).1
    = Ok ["payload"; "[b.tar] a.txt"; "[b.tar] c.txt"; "[b.tar] y"]
  ∧ (calls KeptList 2 gz_b).1
    = [ Ok ["payload"; "[b.tar] a.txt"; "[b.tar] c.txt"; "[b.tar] y"];
        Ok ["payload"; "[b.tar] a.txt"; "[b.tar] c.txt"; "[b.tar] y";
            "[b.tar] a.txt"; "[b.tar] c.txt"; "[b.tar] y"] ]
  ∧ (calls NewList 2 gz_b).1
    = [ Ok ["payload"; "[b.tar] a.txt"; "[b.tar] c.txt"; "[b.tar] y"];
        Ok ["payload"; "[b.tar] a.txt"; "[b.tar] c.txt"; "[b.tar] y"] ]
  ∧ get_members (get_member_names_nested KeptList gz_b).2 = Raise KeyError
  ∧ get_member_names_nested NewList tar_b = (Ok ["c.txt"; "a.txt"; "y"], tar_b).
Proof.
  destruct (get_member_names_nested_display KeptList gz_b ["payload"] eq_refl)
    as [_ Hnested].
  destruct (Hnested tar_b ["c.txt"; "a.txt"; "y"] eq_refl eq_refl)
    as (shown & _ & _ & _ & Hcall & _ & _ & Hmembers).
  split_and!; [reflexivity..| |].
  - apply (Hmembers "[b.tar] a.txt").
    + repeat constructor. by eexists.
    + apply (f_equal fst) in Hcall.
      assert ((get_member_names_nested KeptList gz_b).1
              = Ok ["payload"; "[b.tar] a.txt"; "[b.tar] c.txt"; "[b.tar] y"])
        as Hvalue by reflexivity.
      rewrite Hvalue in Hcall. injection Hcall as Hshown.
      change (head (nested_label "b.tar" <$> shown) = Some "[b.tar] a.txt").
      by rewrite <-Hshown.
    + reflexivity.
  - exact (proj1 (get_member_names_nested_display NewList tar_b _ eq_refl)
             eq_refl).
Defined.

(** ** ArContainer, continued *)

(** X15.  Filtering the archive members again changes nothing; an archive
    without symbol table and long-names table keeps all its members, in
    order; and nothing is left exactly when every member is one of the
    two tables. *)
Theorem ar_adjusted_members_idempotent {M : Type} (members : list (string * M)) :
  ArContainer_get_adjusted_members (ArContainer_get_adjusted_members members)
  = ArContainer_get_adjusted_members members
  ∧ (Forall (λ p, p.1 ≠ "/" ∧ p.1 ≠ "//") members
     ↔ ArContainer_get_adjusted_members members = members)
  ∧ (Forall (λ p, p.1 = "/" ∨ p.1 = "//") members
     ↔ ArContainer_get_adjusted_members members = []).
Proof.
  unfold ArContainer_get_adjusted_members. split_and!.
  - rewrite list_filter_filter. apply list_filter_iff. tauto.
  - split.
    + intros Hall. apply filter_Forall_id. eapply Forall_impl; [exact Hall|].
      intros p. simpl. rewrite known_ignores_keys. tauto.
    + intros Heq. apply Forall_forall. intros p Hp. rewrite <-Heq in Hp.
      apply list_elem_of_filter in Hp as [Hp _].
      rewrite known_ignores_keys in Hp. tauto.
  - split.
    + intros Hall. apply filter_none. intros p Hp.
      eapply Forall_forall in Hall; [|exact Hp]. simpl.
      rewrite known_ignores_keys. tauto.
    + intros Heq. apply Forall_forall. intros p Hp.
      destruct (decide (p.1 ∈ keys known_ignores)) as [Hin|Hin].
      * by apply known_ignores_keys.
      * exfalso. assert (p ∈ filter (λ p : string * M, p.1 ∉ keys known_ignores)
                               members) as Hf by by apply list_elem_of_filter.
        rewrite Heq in Hf. by apply elem_of_nil in Hf.
Qed.

(** ** Container.compare *)

Section compare_facts.
Context {D : Type}.
Variable compare_commented_files : File → File → comment → result D.

Lemma starmap_spec items ending :
let out := starmap compare_commented_files items ending in
∃ n, (n ≤ length items)%nat
  ∧ Forall2 (compared compare_commented_files) (take n items) (yielded out)
  ∧ (raised out = None
     ↔ ending = None ∧ Forall (λ pr, ∃ d, compared compare_commented_files pr d) items)
  ∧ (Forall (λ pr, ∃ d, compared compare_commented_files pr d) items →
     n = length items ∧ raised out = ending)
  ∧ ((n < length items)%nat →
     ∃ pr e, items !! n = Some pr
             ∧ compare_commented_files pr.1.1 pr.1.2 pr.2 = Raise e
             ∧ raised out = Some e).
Proof.
induction items as [|[[f1 f2] note] items IH]; simpl.
{ exists 0. split_and!; [done|constructor| |done|simpl; lia].
  split; [by intros ->|tauto]. }
destruct (compare_commented_files f1 f2 note) as [d|e] eqn:Hf.
- destruct IH as (n & Hn & HF & Hr & Hall & Hstop). simpl.
  exists (S n). split_and!; [lia|by constructor| | |].
  + rewrite Hr, Forall_cons. split; [intros [? ?]|tauto].
    split_and!; [done|by exists d|done].
  + intros [_ Hitems]%Forall_cons. destruct (Hall Hitems) as [-> ->]. done.
  + intros Hlt. apply Hstop. lia.
- exists 0. simpl. split_and!; [lia|constructor| | |].
  + split; [done|]. intros [_ [[d Hd] _]%Forall_cons].
    unfold compared in Hd. simpl in Hd. by rewrite Hf in Hd.
  + intros [[d Hd] _]%Forall_cons.
    unfold compared in Hd. simpl in Hd. by rewrite Hf in Hd.
  + intros _. exists (f1, f2, note), e. by split_and!.
Qed.
End compare_facts.

(** X16.  [compare] yields the comparisons of a leading part of the
    pairings of [comparisons], one result per pairing, in order.  It ends
    normally exactly when [comparisons] did and every pairing compared;
    when every pairing compares, it yields one result for each and ends
    the way [comparisons] ends; and when it stops early, it raised what
    the comparison of the first pairing left out raised. *)
Theorem compare_follows_comparisons {D : Type}
    (compare_commented_files : File → File → comment → result D)
    matcher cfg self other :
  let pairings := comparisons matcher cfg self other in
  let out := compare compare_commented_files matcher cfg self other in
  ∃ n, (n ≤ length (yielded pairings))%nat
    ∧ Forall2 (compared compare_commented_files)
        (take n (yielded pairings)) (yielded out)
    ∧ (raised out = None
       ↔ raised pairings = None
         ∧ Forall (λ pr, ∃ d, compared compare_commented_files pr d)
             (yielded pairings))
    ∧ (Forall (λ pr, ∃ d, compared compare_commented_files pr d)
         (yielded pairings) →
       n = length (yielded pairings) ∧ raised out = raised pairings)
    ∧ ((n < length (yielded pairings))%nat →
       ∃ pr e, yielded pairings !! n = Some pr
               ∧ compare_commented_files pr.1.1 pr.1.2 pr.2 = Raise e
               ∧ raised out = Some e).
Proof. intros pairings out. apply starmap_spec. Qed.

(** Under [new_file] a comparison that cannot take a [MissingFile] of ours
    stops at the first member only theirs has. *)
Example fragile_compare_stops :
  compare fragile_compare sample_matcher with_added_removed tar_a tar_b
  = Gen [ ("a/a.txt", "b/a.txt"); ("a/b.txt", "b/c.txt");
          ("a/x", "/dev/null") ] (Some AttributeError)
  ∧ compare sample_compare sample_matcher with_added_removed tar_a tar_b
    = Gen [ ("a/a.txt", "b/a.txt"); ("a/b.txt", "b/c.txt");
            ("a/x", "/dev/null"); ("/dev/null", "b/y") ] None.
Proof. split; reflexivity. Qed.
(** ** debbindiff.py *)

Section debbindiff_facts.
Import debbindiff.
Context {D : Type}.
Variable parse_args : list string → parsing.
Variable compare_files : string → string → outcome (list D).
Variable open_for_writing : string → outcome unit.
Variable output_html :
list D → option string → stream → option Z → outcome unit.
Variable output_text : list D → stream → outcome unit.

#[local] Abbreviation run argv :=
(script parse_args compare_files open_for_writing output_html output_text
   argv).

#[local] Abbreviation html args differences :=
(html_report open_for_writing output_html args differences).
#[local] Abbreviation text args differences :=
(text_report open_for_writing output_text args differences).

Lemma left_open_app effects effects' opened :
left_open (effects ++ effects') opened
= left_open effects' (left_open effects opened).
Proof.
revert opened. induction effects as [|e effects IH]; intros opened; [done|].
destruct e; simpl; apply IH.
Qed.

Ltac report_block :=
unfold html_report, text_report, with_printer, given;
repeat case_match; simplify_eq/=;
split_and!; try done;
first
  [ repeat (apply Forall_cons_2; [simpl; split_and!; congruence|]);
    apply Forall_nil_2
  | try intros u;
    repeat (rewrite ?filter_cons, ?filter_nil; simpl; repeat case_decide);
    simpl; try done; lia ].

(** A report block has report effects only, none of them on ["-"]; when
  it returns it has closed the file it opened, and when it raises it
  leaves at most that file open. *)
Lemma html_report_effects args differences :
Forall (λ e, is_report e = true ∧ e ≠ Open "-" ∧ e ≠ Close "-")
  (html args differences).1
∧ (∀ u, (html args differences).2 = Returns u →
        left_open (html args differences).1 [] = [])
∧ (length (left_open (html args differences).1 []) ≤ 1)%nat.
Proof. report_block. Qed.

Lemma text_report_effects args differences :
Forall (λ e, is_report e = true ∧ e ≠ Open "-" ∧ e ≠ Close "-")
  (text args differences).1
∧ (∀ u, (text args differences).2 = Returns u →
        left_open (text args differences).1 [] = [])
∧ (length (left_open (text args differences).1 []) ≤ 1)%nat.
Proof. report_block. Qed.

(** The effects before the reports. *)
Lemma script_parsed argv args :
parse_args (tail argv) = Parsed args →
∃ compared,
  (compared = [ParseArgs (tail argv);
               CompareFiles (file1 args) (file2 args)]
   ∨ compared = [ParseArgs (tail argv); SetLevelDebug;
                 CompareFiles (file1 args) (file2 args)])
  ∧ run argv
    = match compare_files (file1 args) (file2 args) with
      | Raises => (compared ++ [PrintTraceback], 2%Z)
      | Returns differences =>
          if decide (0 < length differences) then
            match html args differences with
            | (html_effects, Raises) =>
                (compared ++ html_effects ++ [PrintTraceback], 2%Z)
            | (html_effects, Returns _) =>
                match text args differences with
                | (text_effects, Raises) =>
                    (compared ++ html_effects ++ text_effects
                     ++ [PrintTraceback], 2%Z)
                | (text_effects, Returns _) =>
                    (compared ++ html_effects ++ text_effects, 1%Z)
                end
            end
          else (compared, 0%Z)
      end.
Proof.
intros Hp. unfold script, main. rewrite Hp.
exists ([ParseArgs (tail argv)]
        ++ (if debug args then [SetLevelDebug] else [])
        ++ [CompareFiles (file1 args) (file2 args)]).
split; [destruct (debug args); auto|].
destruct (compare_files (file1 args) (file2 args)) as [differences|];
  [|done].
destruct (decide (0 < length differences)); [|done].
destruct (html args differences) as [html_effects [u|]];
  [|by rewrite <-!app_assoc].
destruct (text args differences) as [text_effects [u'|]];
  by rewrite <-?app_assoc.
Qed.

(** The cases of a run past parsing, with what is known of the effects
  of the two report blocks. *)
Ltac script_cases argv args Hp :=
destruct (script_parsed argv args Hp) as (compared & Hcompared & ->);
destruct (compare_files (file1 args) (file2 args)) as [differences|] eqn:Hc;
[ destruct (decide (0 < length differences)) as [Hlen|Hlen];
  [ pose proof (html_report_effects args differences)
      as (Hhtml & Hhtml_closed & Hhtml_open);
    pose proof (text_report_effects args differences)
      as (Htext & Htext_closed & Htext_open);
    destruct (html args differences) as [html_effects [u|]];
    [ destruct (text args differences) as [text_effects [u'|]] | ]
  | ]
| ];
simpl in *.

Lemma report_not_traceback effects :
Forall (λ e, is_report e = true ∧ e ≠ Open "-" ∧ e ≠ Close "-") effects →
(PrintTraceback ∉ effects)
∧ (∀ a b, CompareFiles a b ∉ effects)
∧ (Open "-" ∉ effects) ∧ (Close "-" ∉ effects).
Proof.
intros Hall. rewrite Forall_forall in Hall.
split_and!; [|intros a b|..]; intros Hin;
  apply Hall in Hin as (? & ? & ?); done.
Qed.

(** X17.  The exit status.  When argparse leaves through [sys.exit]
  (after [--help], [--version] or a usage error), the script ends with
  the status argparse gave: nothing is compared and, the [except] clause
  not catching [SystemExit], no traceback is printed.  Past parsing, the
  status is 0 exactly when [compare_files] returned no difference; it is
  2 exactly when something raised, and then a traceback is printed;
  otherwise it is 1.  In every run a traceback comes with status 2, a
  run with status 0 writes no report and opens no file, whatever
  [--html] and [--text] say, and files are compared only when the
  command line was parsed, and then those it names. *)
Theorem debbindiff_exit_status argv :
(∀ status, parse_args (tail argv) = SystemExit status →
   run argv = ([ParseArgs (tail argv)], status))
∧ (∀ parsed_args, parse_args (tail argv) = Parsed parsed_args →
     ((run argv).2 = 0%Z
      ↔ compare_files (file1 parsed_args) (file2 parsed_args) = Returns [])
     ∧ ((run argv).2 = 0%Z ∨ (run argv).2 = 1%Z ∨ (run argv).2 = 2%Z)
     ∧ ((run argv).2 = 2%Z ↔ PrintTraceback ∈ (run argv).1)
     ∧ CompareFiles (file1 parsed_args) (file2 parsed_args) ∈ (run argv).1
     ∧ (∀ differences,
          compare_files (file1 parsed_args) (file2 parsed_args)
          = Returns differences →
          differences ≠ [] →
          given (html_output parsed_args) = None →
          given (text_output parsed_args) = None →
          (run argv).2 = 1%Z
          ∧ Forall (λ e, is_report e = false) (run argv).1))
∧ (PrintTraceback ∈ (run argv).1 → (run argv).2 = 2%Z)
∧ ((run argv).2 = 0%Z → Forall (λ e, is_report e = false) (run argv).1)
∧ (∀ a b, CompareFiles a b ∈ (run argv).1 →
     ∃ parsed_args, parse_args (tail argv) = Parsed parsed_args
                    ∧ a = file1 parsed_args ∧ b = file2 parsed_args)
∧ head (run argv).1 = Some (ParseArgs (tail argv)).
Proof.
assert (∀ status, parse_args (tail argv) = SystemExit status →
          run argv = ([ParseArgs (tail argv)], status)) as Hexit.
{ intros status Hp. unfold script, main. by rewrite Hp. }
assert (∀ args, parse_args (tail argv) = Parsed args →
          ((run argv).2 = 0%Z
           ↔ compare_files (file1 args) (file2 args) = Returns [])
          ∧ ((run argv).2 = 0%Z ∨ (run argv).2 = 1%Z ∨ (run argv).2 = 2%Z)
          ∧ ((run argv).2 = 2%Z ↔ PrintTraceback ∈ (run argv).1)
          ∧ CompareFiles (file1 args) (file2 args) ∈ (run argv).1
          ∧ ((run argv).2 = 0%Z →
             Forall (λ e, is_report e = false) (run argv).1)
          ∧ (∀ a b, CompareFiles a b ∈ (run argv).1 →
               a = file1 args ∧ b = file2 args)
          ∧ head (run argv).1 = Some (ParseArgs (tail argv))) as Hparsed.
{ intros args Hp. script_cases argv args Hp.
  all: try (apply report_not_traceback in Hhtml as (Hh1 & Hh2 & _));
    try (apply report_not_traceback in Htext as (Ht1 & Ht2 & _)).
  all: split_and!.
  all: try (destruct differences; simpl in *; [lia|]).
  all: try (destruct differences; simpl in *; [|lia]).
  all: try (intros a b).
  all: rewrite ?elem_of_app.
  all: destruct Hcompared as [-> | ->]; simpl.
  all: rewrite ?elem_of_cons, ?elem_of_nil.
  all: try (repeat constructor; fail).
  all: try (split; intros; simplify_eq; done).
  all: try (specialize (Hh2 a b)); try (specialize (Ht2 a b)).
  all: try (intuition (try discriminate; simplify_eq; done)).
  all: try tauto. }
split_and!.
- exact Hexit.
- intros args Hp. destruct (Hparsed args Hp) as (H0 & H012 & H2 & Hcf & _).
  split_and!; try done.
  intros differences Hc Hd Hh Ht.
  unfold script, main, html_report, text_report. rewrite Hp, Hc, Hh, Ht.
  rewrite decide_True by (destruct differences; simpl; [done|lia]).
  simpl. split; [done|]. destruct (debug args); repeat constructor.
- destruct (parse_args (tail argv)) as [args|status] eqn:Hp.
  + by apply (Hparsed args).
  + rewrite (Hexit status eq_refl). simpl.
    rewrite elem_of_cons, elem_of_nil. intuition discriminate.
- destruct (parse_args (tail argv)) as [args|status] eqn:Hp.
  + by apply (Hparsed args).
  + rewrite (Hexit status eq_refl). simpl. intros _. repeat constructor.
- intros a b. destruct (parse_args (tail argv)) as [args|status] eqn:Hp.
  + intros Hin. exists args. split; [done|].
    by apply (Hparsed args).
  + rewrite (Hexit status eq_refl). simpl.
    rewrite elem_of_cons, elem_of_nil. intuition discriminate.
- destruct (parse_args (tail argv)) as [args|status] eqn:Hp.
  + by apply (Hparsed args).
  + by rewrite (Hexit status eq_refl).
Qed.

(** X18.  When the HTML presenter raises, the exit status is 2, the text
  report is not attempted, and the file opened for the HTML report is
  not closed by [make_printer], whose lines after [yield] do not run. *)
Theorem debbindiff_html_failure argv args differences path :
parse_args (tail argv) = Parsed args →
compare_files (file1 args) (file2 args) = Returns differences →
differences ≠ [] →
given (html_output args) = Some path →
path = "-" ∨ open_for_writing path = Returns tt →
output_html differences (css_url args)
  (if decide (path = "-") then Stdout else FileStream path)
  (max_report_size args) = Raises →
(run argv).2 = 2%Z
∧ (∀ output, OutputText output ∉ (run argv).1)
∧ (Close path ∉ (run argv).1)
∧ left_open (run argv).1 [] = if decide (path = "-") then [] else [path].
Proof.
intros Hp Hc Hd Hg Ho Hh.
assert (0 < length differences)%nat as Hlen by (destruct differences; simpl; [done|lia]).
unfold script, main, html_report, with_printer.
rewrite Hp, Hc, Hg. rewrite decide_True by done.
destruct (decide (path = "-")) as [->|Hne].
- rewrite Hh. simpl.
  split_and!; [done| | |by destruct (debug args)].
  + intros output. rewrite !elem_of_cons, !elem_of_app, !elem_of_cons, elem_of_nil.
    destruct (debug args); rewrite ?elem_of_cons, ?elem_of_nil;
      intuition discriminate.
  + rewrite !elem_of_cons, !elem_of_app, !elem_of_cons, elem_of_nil.
    destruct (debug args); rewrite ?elem_of_cons, ?elem_of_nil;
      intuition discriminate.
- destruct Ho as [?|Ho]; [done|]. rewrite Ho, Hh. simpl.
  split_and!; [done| | |by destruct (debug args)].
  + intros output. rewrite !elem_of_cons, !elem_of_app, !elem_of_cons, elem_of_nil.
    destruct (debug args); rewrite ?elem_of_cons, ?elem_of_nil;
      intuition discriminate.
  + rewrite !elem_of_cons, !elem_of_app, !elem_of_cons, elem_of_nil.
    destruct (debug args); rewrite ?elem_of_cons, ?elem_of_nil;
      intuition discriminate.
Qed.

(** X19.  Files.  [sys.stdout] is never opened nor closed: no run opens
  or closes ["-"].  A run that does not end with status 2 has closed
  every file it opened; a run that does has at most one file left
  open. *)
Theorem debbindiff_files argv :
(Open "-" ∉ (run argv).1)
∧ (Close "-" ∉ (run argv).1)
∧ ((run argv).2 ≠ 2%Z → left_open (run argv).1 [] = [])
∧ (length (left_open (run argv).1 []) ≤ 1)%nat.
Proof.
destruct (parse_args (tail argv)) as [args|status] eqn:Hp.
2:{ unfold script, main. rewrite Hp. simpl.
    rewrite !elem_of_cons, !elem_of_nil.
    split_and!; [intuition discriminate..|done|lia]. }
script_cases argv args Hp.
all: try (apply report_not_traceback in Hhtml as (_ & _ & Hh1 & Hh2));
  try (apply report_not_traceback in Htext as (_ & _ & Ht1 & Ht2)).
all: try (specialize (Hhtml_closed u eq_refl));
  try (specialize (Htext_closed u' eq_refl)).
all: split_and!.
all: rewrite ?elem_of_app, ?left_open_app.
all: destruct Hcompared as [-> | ->]; simpl.
all: rewrite ?elem_of_cons, ?elem_of_nil, ?left_open_app.
all: rewrite ?Hhtml_closed, ?Htext_closed; simpl.
all: try done; try lia.
all: try (intuition (try discriminate; done)).
Qed.
End debbindiff_facts.

Lemma debbindiff_exit_status_witness :
  debbindiff.script sample_parse_args sample_compare_files sample_open
    failing_output_html sample_output_text ["debbindiff"; "--version"]
  = ([debbindiff.ParseArgs ["--version"]], 0%Z)
  ∧ debbindiff.script sample_parse_args sample_compare_files sample_open
      failing_output_html sample_output_text ["debbindiff"; "a.deb"]
    = ([debbindiff.ParseArgs ["a.deb"]], 2%Z)
  ∧ debbindiff.CompareFiles "a.deb" "b.deb"
    ∈ (debbindiff.script sample_parse_args sample_compare_files sample_open
         failing_output_html sample_output_text sample_argv).1.
Proof.
  destruct (debbindiff_exit_status sample_parse_args sample_compare_files
              sample_open failing_output_html sample_output_text
              ["debbindiff"; "--version"]) as [Hversion _].
  destruct (debbindiff_exit_status sample_parse_args sample_compare_files
              sample_open failing_output_html sample_output_text
              ["debbindiff"; "a.deb"]) as [Husage _].
  destruct (debbindiff_exit_status sample_parse_args sample_compare_files
              sample_open failing_output_html sample_output_text
              sample_argv) as (_ & Hparsed & _).
  split_and!; [exact (Hversion 0%Z eq_refl)|exact (Husage 2%Z eq_refl)|].
  by destruct (Hparsed sample_args eq_refl) as (_ & _ & _ & Hcompared & _).
Defined.

Lemma debbindiff_html_failure_witness :
  (debbindiff.script sample_parse_args sample_compare_files sample_open
     failing_output_html sample_output_text sample_argv).2 = 2%Z
  ∧ (debbindiff.script sample_parse_args sample_compare_files sample_open
       failing_output_html sample_output_text sample_argv).1
    = [ debbindiff.ParseArgs (tail sample_argv);
        debbindiff.CompareFiles "a.deb" "b.deb"; debbindiff.Open "report.html";
        debbindiff.OutputHtml (debbindiff.FileStream "report.html") None None;
        debbindiff.PrintTraceback ]
  ∧ debbindiff.left_open
      (debbindiff.script sample_parse_args sample_compare_files sample_open
         failing_output_html sample_output_text sample_argv).1 []
    = ["report.html"].
Proof.
  destruct (debbindiff_html_failure sample_parse_args sample_compare_files
              sample_open failing_output_html sample_output_text sample_argv
              sample_args ["control differs"] "report.html" eq_refl eq_refl)
    as (Hstatus & _ & _ & Hopen);
    [discriminate|reflexivity|by right|reflexivity|].
  split_and!; [exact Hstatus|reflexivity|exact Hopen].
Defined.

(** ** What comparisons pairs *)

Lemma event_sound_shape my om e :
  ev_pass e ≠ Nested → event_sound my om e →
  pairing_of_members my om (ev_pairing e).
Proof.
  destruct e as [p a b [[m t] c]]. unfold event_sound, pairing_of_members.
  simpl. destruct p, a as [a|], b as [b|]; try done; intros _.
  - intros (-> & Hm & Ht & ->). left. exists b, b. split_and!; [done..|by left].
  - intros (Hm & Ht & Hs). left. exists a, b. split_and!; [done..|by right].
  - intros (Hm & -> & ->). right. left. split_and!; [by exists a|done..].
  - intros (Ht & -> & ->). right. right. split_and!; [by exists b|done..].
Qed.

Lemma pairing_passes_trace_shape matcher cfg (my om : OrderedDict File) :
  NoDup (keys my) → NoDup (keys om) →
  Forall (λ e, ev_pass e ≠ Nested ∧ event_sound my om e)
    (yielded (pairing_passes_trace matcher cfg my om)).
Proof.
  intros Hmy Hom.
  destruct (exact_name_trace_spec my [] om) as (E & HE & _ & _ & Es);
    [done..|intros k _; apply not_elem_of_nil|]. simpl in HE.
  set (rm := without (keys om) my) in *.
  set (ro := without (keys my) om) in *.
  destruct (fuzzy_trace_any (matcher rm ro) rm ro)
    as (F & st & HF & Fs & _ & _ & _ & _ & Hst);
    [by apply NoDup_keys_without..|].
  assert (Forall (λ e, ev_pass e ≠ Nested ∧ event_sound my om e) E) as HEs.
  { eapply Forall_impl; [exact Es|]. intros e [Hp He]. split; [by rewrite Hp|done]. }
  assert (Forall (λ e, ev_pass e ≠ Nested ∧ event_sound my om e) F) as HFs.
  { eapply Forall_impl; [exact Fs|]. intros e [Hp He]. split; [by rewrite Hp|].
    eapply event_sound_mono; [| |exact He]; apply list_subseteq_filter. }
  unfold pairing_passes_trace. rewrite HE. fold rm ro. rewrite HF.
  destruct st as [[my' other']|e]; simpl.
  - destruct Hst as [-> ->]. rewrite !Forall_app. split_and!; [done..|].
    destruct (new_file cfg); [|constructor].
    eapply Forall_impl; [apply added_removed_trace_sound|].
    intros e [Hp He]. split; [by rewrite Hp|].
    eapply event_sound_mono; [| |exact He]; etrans; apply list_subseteq_filter.
  - by rewrite Forall_app.
Qed.

(** X20.  Whatever the matcher answers, and also in a run that ends with
    an exception, every pairing of the passes has one of three shapes:
    two members, one of each side, with the same name and no comment or
    with a fuzzy comment; a member of [self] facing the [MissingFile] made
    for it; or a member of [other] facing the [MissingFile] made for it.
    [comparisons] pairs nothing else and invents no other file. *)
Theorem comparisons_pairs_members matcher cfg self other m0 o0 n1 n2 my om :
  get_members self = Ok m0 →
  get_members other = Ok o0 →
  get_nested_container self = Ok n1 →
  get_nested_container other = Ok n2 →
  n1 = None ∨ n2 = None →
  unpack n1 m0 = Ok my →
  unpack n2 o0 = Ok om →
  Forall (pairing_of_members my om)
    (yielded (comparisons matcher cfg self other)).
Proof.
  intros Hm Ho H1 H2 Hn Hu1 Hu2.
  rewrite <-comparisons_trace_erase.
  rewrite (comparisons_trace_passes _ _ _ _ _ _ _ _ _ _
             Hm Ho H1 H2 Hn Hu1 Hu2).
  unfold gen_map. simpl. apply Forall_fmap.
  eapply Forall_impl; [apply pairing_passes_trace_shape|].
  - eapply unpack_NoDup; [|exact Hu1]. by eapply get_members_NoDup.
  - eapply unpack_NoDup; [|exact Hu2]. by eapply get_members_NoDup.
  - intros e [Hp He]. by apply event_sound_shape.
Qed.

Lemma comparisons_pairs_members_witness :
  raised (comparisons repeating_matcher with_added_removed tar_a tar_b)
  = Some KeyError
  ∧ Forall (pairing_of_members
              [("a.txt", plain "a/a.txt"); ("b.txt", plain "a/b.txt");
               ("x", plain "a/x")]
              [("c.txt", plain "b/c.txt"); ("a.txt", plain "b/a.txt");
               ("y", plain "b/y")])
      (yielded (comparisons repeating_matcher with_added_removed tar_a tar_b)).
Proof.
  split; [reflexivity|].
  exact (comparisons_pairs_members repeating_matcher with_added_removed
           tar_a tar_b _ _ None None _ _ eq_refl eq_refl eq_refl eq_refl
           (or_introl eq_refl) eq_refl eq_refl).
Defined.

(** X21.  What [get_members] lists, [lookup_file] finds: every entry of
    the member dictionary is returned by [lookup_file] for its name, and a
    name for which [get_member] raises [KeyError] is in no entry. *)
Theorem lookup_file_finds_listed_members self d k :
  get_members self = Ok d →
  (∀ f, (k, f) ∈ d → lookup_file self [k] = Ok (Some f))
  ∧ (lookup_file self [k] = Ok None → k ∉ keys d).
Proof.
  intros Hd. destruct (get_members_listed _ _ Hd) as (names & Hn & _).
  assert (∀ f, (k, f) ∈ d → get_member self k = Ok f) as Hget.
  { intros f Hin. unfold get_members, get_all_members in Hd.
    rewrite Hn in Hd. simpl in Hd.
    destruct (fetch_all (get_member self) names) as [l|] eqn:Hl; [|done].
    injection Hd as <-. apply elem_of_of_pairs in Hin.
    by eapply fetch_all_members. }
  split.
  - intros f Hin. simpl. by rewrite (Hget f Hin).
  - simpl. intros Hl (p & -> & Hin)%list_elem_of_fmap. destruct p as [k f].
    simpl in *. by rewrite (Hget f Hin) in Hl.
Qed.

Lemma lookup_file_finds_listed_members_witness :
  lookup_file tar_a ["b.txt"] = Ok (Some (plain "a/b.txt"))
  ∧ lookup_file tar_a ["nope"] = Ok None
  ∧ "nope" ∉ keys [("a.txt", plain "a/a.txt"); ("b.txt", plain "a/b.txt");
                   ("x", plain "a/x")].
Proof.
  destruct (lookup_file_finds_listed_members tar_a _ "b.txt" eq_refl)
    as [Hfound _].
  destruct (lookup_file_finds_listed_members tar_a _ "nope" eq_refl)
    as [_ Habsent].
  split_and!; [|reflexivity|exact (Habsent eq_refl)].
  apply Hfound. apply elem_of_cons. right. apply elem_of_cons. by left.
Defined.
